(** * The 1-D membrane channel control volume

    A shallow embedding of [watertap/core/membrane_channel1d.py]: the
    configuration template and the class [MembraneChannel1DBlockData] with
    the methods that build the grid, the isothermal constraint, the
    pressure-gradient alias and the scaling factors, followed by their
    properties.  [add_geometry], which adds the width variable to the
    inherited geometry, works on the block together with its width.

    Conventions.
    - Python numbers (grid points, time points, scaling factors) are
      rationals [Q]; Python's [==] on numbers is [Qeq_bool].
    - A method of the class is a computation in the monad [M]: it reads and
      mutates the block and either returns or raises.  A mutation made
      before an exception is raised stays in the block, as in Python.
    - What the class inherits ([super()] calls, helpers of the mixin) is a
      [Variable] of the section [MembraneChannel1D]. *)

From Stdlib Require Import ZArith QArith List Lia Ascii String Bool.
From stdpp Require Import base option gmap strings.
Import ListNotations.

Local Open Scope Q_scope.
Local Open Scope string_scope.

(** ** Exceptions and the block monad *)

Inductive exn : Type :=
  | AttributeError (name : string)
  | IndexError
  | KeyError
  | RuntimeError
  | ValueError
  | ConfigurationError.

Inductive result (A : Type) : Type :=
  | Ok (a : A)
  | Raise (e : exn).
Arguments Ok {A} a.
Arguments Raise {A} e.

(** ** Symbolic constraints *)

(** [b.properties[t, x].temperature] *)
Inductive expr : Type :=
  | temperature (t x : Q).

(** [lhs == rhs] *)
Inductive relation : Type :=
  | Equality (lhs rhs : expr).

(** An indexed [Constraint]: the entries its rule did not skip, in the
    order of the index set. *)
Definition IndexedConstraint : Type := list ((Q * Q) * relation).

(** ** The block *)

(** A variable object is known by its identity; its value lives in
    [var_value] and its scaling factor in the [scaling_factor] suffix.  An
    attribute that holds an indexed [Var] holds the identities of its
    members in the order of [.values()]. *)
Definition var : Type := nat.

Record Block : Type := mkBlock {
  time : list Q;                          (* flowsheet().config.time *)
  length_domain : option (list Q);        (* ContinuousSet, in sorted order *)
  first_element : option Q;
  difference_elements : option (list Q);
  nfe : option Z;
  area : option var;
  pressure_change_total : option (list var);
  pressure_dx : option (list var);
  deltaP : option (list var);
  dP_dx : option (list var);
  var_value : gmap var Q;
  constraints : list (string * IndexedConstraint);
  scaling_factor : gmap var Q
}.

Definition M (A : Type) : Type := Block -> Block * result A.

Definition ret {A} (a : A) : M A := fun s => (s, Ok a).

Definition raise {A} (e : exn) : M A := fun s => (s, Raise e).

Definition bind {A B} (m : M A) (k : A -> M B) : M B :=
  fun s =>
    match m s with
    | (s1, Ok a) => k a s1
    | (s1, Raise e) => (s1, Raise e)
    end.

Declare Scope block_scope.
Delimit Scope block_scope with block.
Notation "x <- m ;; k" := (bind m (fun x => k))
  (at level 100, m at next level, right associativity) : block_scope.
Notation "m ;; k" := (bind m (fun _ => k))
  (at level 100, right associativity) : block_scope.
Local Open Scope block_scope.

Definition gets {A} (f : Block -> A) : M A := fun s => (s, Ok (f s)).

Definition modify (f : Block -> Block) : M unit := fun s => (f s, Ok tt).

(** [self.name] for an attribute that may be missing. *)
Definition getattr {A} (name : string) (f : Block -> option A) : M A :=
  fun s =>
    match f s with
    | Some a => (s, Ok a)
    | None => (s, Raise (AttributeError name))
    end.

(** [hasattr(self, name)] *)
Definition hasattr {A} (f : Block -> option A) : M bool :=
  gets (fun s => match f s with Some _ => true | None => false end).

Definition lift {A} (r : result A) : M A := fun s => (s, r).

(** [for v in l: body(v)] *)
Fixpoint for_each {A} (l : list A) (body : A -> M unit) : M unit :=
  match l with
  | [] => ret tt
  | v :: l' => body v ;; for_each l' body
  end.

(** *** Attribute assignment *)

Definition set_first_element (x : Q) (s : Block) : Block :=
  mkBlock (time s) (length_domain s) (Some x) (difference_elements s) (nfe s)
    (area s) (pressure_change_total s) (pressure_dx s) (deltaP s) (dP_dx s)
    (var_value s) (constraints s) (scaling_factor s).

Definition set_difference_elements (l : list Q) (s : Block) : Block :=
  mkBlock (time s) (length_domain s) (first_element s) (Some l) (nfe s)
    (area s) (pressure_change_total s) (pressure_dx s) (deltaP s) (dP_dx s)
    (var_value s) (constraints s) (scaling_factor s).

Definition set_nfe (n : Z) (s : Block) : Block :=
  mkBlock (time s) (length_domain s) (first_element s) (difference_elements s)
    (Some n) (area s) (pressure_change_total s) (pressure_dx s) (deltaP s)
    (dP_dx s) (var_value s) (constraints s) (scaling_factor s).

Definition set_dP_dx (r : list var) (s : Block) : Block :=
  mkBlock (time s) (length_domain s) (first_element s) (difference_elements s)
    (nfe s) (area s) (pressure_change_total s) (pressure_dx s) (deltaP s)
    (Some r) (var_value s) (constraints s) (scaling_factor s).

Definition set_constraints (c : list (string * IndexedConstraint)) (s : Block)
  : Block :=
  mkBlock (time s) (length_domain s) (first_element s) (difference_elements s)
    (nfe s) (area s) (pressure_change_total s) (pressure_dx s) (deltaP s)
    (dP_dx s) (var_value s) c (scaling_factor s).

Definition set_scaling (r : gmap var Q) (s : Block) : Block :=
  mkBlock (time s) (length_domain s) (first_element s) (difference_elements s)
    (nfe s) (area s) (pressure_change_total s) (pressure_dx s) (deltaP s)
    (dP_dx s) (var_value s) (constraints s) r.

Definition set_length_domain (l : list Q) (s : Block) : Block :=
  mkBlock (time s) (Some l) (first_element s) (difference_elements s) (nfe s)
    (area s) (pressure_change_total s) (pressure_dx s) (deltaP s) (dP_dx s)
    (var_value s) (constraints s) (scaling_factor s).

Definition set_var_value (m : gmap var Q) (s : Block) : Block :=
  mkBlock (time s) (length_domain s) (first_element s) (difference_elements s)
    (nfe s) (area s) (pressure_change_total s) (pressure_dx s) (deltaP s)
    (dP_dx s) m (constraints s) (scaling_factor s).

(** ** Ordered sets of numbers *)

(** [x in l] for numbers. *)
Definition mem (x : Q) (l : list Q) : bool := existsb (Qeq_bool x) l.

(** [l.first()]: the first member in the set's order; an empty set has
    none. *)
Definition first (l : list Q) : result Q :=
  match l with
  | x :: _ => Ok x
  | [] => Raise IndexError
  end.

(** [Set(ordered=True, initialize=it)]: the members in the order they are
    first met. *)
Fixpoint Set_ordered (it : list Q) : list Q :=
  match it with
  | [] => []
  | x :: it' =>
      x :: List.filter (fun y => negb (Qeq_bool y x)) (Set_ordered it')
  end.

(** [len(l)] *)
Definition len {A} (l : list A) : Z := Z.of_nat (length l).

(** [x < y] on numbers. *)
Definition Qlt_bool (x y : Q) : bool := negb (Qle_bool y x).

(** A [ContinuousSet] keeps its points strictly increasing. *)
Fixpoint increasing (l : list Q) : bool :=
  match l with
  | [] => true
  | x :: l' => forallb (Qlt_bool x) l' && increasing l'
  end.

(** [all(x in l2 for x in l1)] *)
Definition subset (l1 l2 : list Q) : bool := forallb (fun x => mem x l2) l1.

(** [min(l)]: the running minimum is replaced by a strictly smaller member
    only; an empty argument is a [ValueError]. *)
Fixpoint min_from (m : Q) (l : list Q) : Q :=
  match l with
  | [] => m
  | y :: l' => min_from (if Qlt_bool y m then y else m) l'
  end.

Definition min (l : list Q) : result Q :=
  match l with
  | [] => Raise ValueError
  | x :: l' => Ok (min_from x l')
  end.

(** ** Components of a block *)

(** [self.name[i].value = x] and [self.name[i].value], where [i] is the
    position of the member of the indexed variable. *)
Definition set_member_value (name : string)
    (attr : Block -> option (list var)) (i : nat) (x : Q) : M unit :=
  vs <- getattr name attr ;;
  match vs !! i with
  | Some v => modify (fun s => set_var_value (<[v := x]> (var_value s)) s)
  | None => raise KeyError
  end.

Definition member_value (name : string)
    (attr : Block -> option (list var)) (i : nat) : M (option Q) :=
  vs <- getattr name attr ;;
  match vs !! i with
  | Some v => gets (fun s => var_value s !! v)
  | None => raise KeyError
  end.

(** [iscale.get_scaling_factor(v)]: the entry of the suffix, [None] when
    there is none. *)
Definition get_scaling_factor (v : var) : M (option Q) :=
  gets (fun s => scaling_factor s !! v).

(** [iscale.set_scaling_factor(v, sf)] *)
Definition set_scaling_factor (v : var) (sf : Q) : M unit :=
  modify (fun s => set_scaling (<[v := sf]> (scaling_factor s)) s).

Fixpoint lookup_component (name : string)
    (cs : list (string * IndexedConstraint)) : option IndexedConstraint :=
  match cs with
  | [] => None
  | (n, c) :: cs' => if String.eqb n name then Some c else lookup_component name cs'
  end.

(** [del_component(name)] *)
Fixpoint remove_component (name : string)
    (cs : list (string * IndexedConstraint))
  : list (string * IndexedConstraint) :=
  match cs with
  | [] => []
  | (n, c) :: cs' =>
      if String.eqb n name then remove_component name cs'
      else (n, c) :: remove_component name cs'
  end.

(** Assigning an indexed component to a name the block already uses: the
    component the name held is deleted, and the new one is then refused,
    because the index set of the old one is still there under
    [name ^ "_index"]. *)
Definition add_component (name : string) (c : IndexedConstraint) : M unit :=
  fun s =>
    match lookup_component name (constraints s) with
    | Some _ =>
        (set_constraints (remove_component name (constraints s)) s,
         Raise RuntimeError)
    | None => (set_constraints (constraints s ++ [(name, c)])%list s, Ok tt)
    end.

(** Construction of an indexed [Constraint]: the rule is called at every
    index, in order; an index whose rule returns [Constraint.Skip] (here
    [None]) gets no entry. *)
Fixpoint Constraint (index : list (Q * Q))
    (rule : Q -> Q -> M (option relation)) : M IndexedConstraint :=
  match index with
  | [] => ret []
  | (t, x) :: index' =>
      r <- rule t x ;;
      rest <- Constraint index' rule ;;
      ret (match r with
           | Some body => ((t, x), body) :: rest
           | None => rest
           end)
  end.

(** The number of constraints and of variables of the block, and its
    degrees of freedom. *)
Definition number_constraints (s : Block) : Z :=
  fold_right (fun nc acc => (len (snd nc) + acc)%Z) 0%Z (constraints s).

Definition number_variables (s : Block) : Z := Z.of_nat (size (var_value s)).

Definition degrees_of_freedom (s : Block) : Z :=
  (number_variables s - number_constraints s)%Z.

(** A constraint holds under an assignment of temperatures. *)
Definition holds (T : Q -> Q -> Q) (r : relation) : Prop :=
  match r with
  | Equality (temperature t1 x1) (temperature t2 x2) => T t1 x1 == T t2 x2
  end.

(** [idaes.core.FlowDirection] *)
Inductive FlowDirection : Type := forward | backward.

(** ** The configuration template *)

(** [idaes.core.DistributedVars] *)
Inductive DistributedVars : Type := uniform | variant.

(** The Python values a configuration option is given. *)
Inductive pyval : Type :=
  | PyNone
  | PyBool (b : bool)
  | PyInt (z : Z)
  | PyFloat (q : Q)
  | PyStr (s : string)
  | PyUseDefault                       (* idaes.core.useDefault *)
  | PyDistributedVars (d : DistributedVars).

Section Int.

(** The builtin [int] on a string: the integer, or [None] where it
    raises. *)
Variable int_str : string -> option Z.

(** The builtin [int]: [None] where it raises.  A float is truncated
    towards zero. *)
Definition int (v : pyval) : option Z :=
  match v with
  | PyBool b => Some (Z.b2z b)
  | PyInt z => Some z
  | PyFloat q => Some (Z.quot (Qnum q) (Zpos (Qden q)))
  | PyStr s => int_str s
  | PyNone | PyUseDefault | PyDistributedVars _ => None
  end.

Definition int_domain (v : pyval) : option pyval := PyInt <$> int v.

End Int.

(** A [ConfigValue]: its current value and its [domain], a callable that
    converts a value or raises. *)
Record ConfigValue : Type := mkConfigValue {
  value : pyval;
  domain : option (pyval -> option pyval)
}.

(** [ConfigValue._cast]: [None] is kept, a failure of the domain becomes a
    [ValueError]. *)
Definition cast (domain : option (pyval -> option pyval)) (v : pyval)
  : result pyval :=
  match v with
  | PyNone => Ok PyNone
  | _ =>
      match domain with
      | None => Ok v
      | Some d =>
          match d v with
          | Some v' => Ok v'
          | None => Raise ValueError
          end
      end
  end.

(** [ConfigValue(default=..., domain=...)]: the default is the first
    value, and is cast like any other. *)
Definition ConfigValue_ (default : pyval)
    (domain : option (pyval -> option pyval)) : result ConfigValue :=
  match cast domain default with
  | Ok v => Ok (mkConfigValue v domain)
  | Raise e => Raise e
  end.

Definition ConfigDict : Type := list (string * ConfigValue).

Fixpoint get (name : string) (c : ConfigDict) : option ConfigValue :=
  match c with
  | [] => None
  | (n, cv) :: c' => if String.eqb n name then Some cv else get name c'
  end.

(** [c.declare(name, cv)]: a name is declared once. *)
Definition declare (name : string) (cv : result ConfigValue)
    (c : result ConfigDict) : result ConfigDict :=
  match c with
  | Raise e => Raise e
  | Ok c =>
      match cv with
      | Raise e => Raise e
      | Ok cv =>
          match get name c with
          | Some _ => Raise ValueError
          | None => Ok (c ++ [(name, cv)])%list
          end
      end
  end.

(** [str(key).replace(' ', '_')] *)
Fixpoint normalise (key : string) : string :=
  match key with
  | EmptyString => EmptyString
  | String c key' =>
      String (if Ascii.eqb c " "%char then "_"%char else c) (normalise key')
  end.

(** The value given for the option [name]: the value of the last key that
    stands for it. *)
Fixpoint given (name : string) (kwargs : list (string * pyval))
  : option pyval :=
  match kwargs with
  | [] => None
  | (key, v) :: kwargs' =>
      match given name kwargs' with
      | Some v' => Some v'
      | None => if String.eqb (normalise key) name then Some v else None
      end
  end.

(** The options are assigned in the order of their declaration; each
    value is cast by the domain of its option. *)
Fixpoint assign (kwargs : list (string * pyval)) (c : ConfigDict)
  : result ConfigDict :=
  match c with
  | [] => Ok []
  | (n, cv) :: c' =>
      match given n kwargs with
      | None =>
          match assign kwargs c' with
          | Ok r => Ok ((n, cv) :: r)
          | Raise e => Raise e
          end
      | Some v =>
          match cast (domain cv) v with
          | Ok v' =>
              match assign kwargs c' with
              | Ok r => Ok ((n, mkConfigValue v' (domain cv)) :: r)
              | Raise e => Raise e
              end
          | Raise e => Raise e
          end
      end
  end.

(** [c.set_value(kwargs)]: a key stands for the option named by the key
    with its spaces replaced by underscores; a key that stands for no
    declared option is refused before anything is assigned; on a failure
    the configuration is left as it was. *)
Definition set_value (kwargs : list (string * pyval)) (c : ConfigDict)
  : result ConfigDict :=
  if forallb
       (fun kv =>
          match get (normalise (fst kv)) c with
          | Some _ => true
          | None => false
          end)
       kwargs
  then assign kwargs c
  else Raise ValueError.

Section Config.

(** The builtin [int] on strings, the template of
    [membrane_channel_base] and Pyomo's validator [In(DistributedVars)]. *)
Variable int_str : string -> option Z.
Variable Base_CONFIG_Template : ConfigDict.
Variable In_DistributedVars : pyval -> option pyval.

Definition CONFIG_Template : result ConfigDict :=
  declare "collocation_points"
    (ConfigValue_ (PyInt 5) (Some (int_domain int_str)))
 (declare "finite_elements"
    (ConfigValue_ (PyInt 20) (Some (int_domain int_str)))
 (declare "transformation_scheme" (ConfigValue_ PyUseDefault None)
 (declare "transformation_method" (ConfigValue_ PyUseDefault None)
 (declare "area_definition"
    (ConfigValue_ (PyDistributedVars uniform) (Some In_DistributedVars))
 (Ok Base_CONFIG_Template))))).

End Config.

(** ** The class [MembraneChannel1DBlockData] *)

Section MembraneChannel1D.

(** What the class inherits from [MembraneChannelMixin] and
    [ControlVolume1DBlockData]. *)
Context {Args Kwargs : Type}.
Variable base_apply_transformation : Args -> M unit.
Variable base_add_state_blocks : FlowDirection -> option bool -> M unit.
Variable _add_interface_stateblock : option bool -> M unit.
Variable base_add_isothermal_conditions : Kwargs -> M unit.
Variable base_calculate_scaling_factors : M unit.

Definition apply_transformation (args : Args) : M unit :=
  base_apply_transformation args ;;
  L <- getattr "length_domain" length_domain ;;
  x0 <- lift (first L) ;;
  modify (set_first_element x0) ;;
  L <- getattr "length_domain" length_domain ;;
  fe <- getattr "first_element" first_element ;;
  modify (set_difference_elements
            (Set_ordered (List.filter (fun x => negb (Qeq_bool x fe)) L))) ;;
  de <- getattr "difference_elements" difference_elements ;;
  modify (set_nfe (len de)).

Definition add_state_blocks (information_flow : FlowDirection)
    (has_phase_equilibrium : option bool) : M unit :=
  base_add_state_blocks information_flow has_phase_equilibrium ;;
  L <- getattr "length_domain" length_domain ;;
  x0 <- lift (first L) ;;
  modify (set_first_element x0) ;;
  _add_interface_stateblock has_phase_equilibrium.

(** Python's [None] is [tt]. *)
Definition add_total_enthalpy_balances (kwrags : Kwargs) : M unit :=
  ret tt.

Definition eq_feed_isothermal (t x : Q) : M (option relation) :=
  L <- getattr "length_domain" length_domain ;;
  x0 <- lift (first L) ;;
  if Qeq_bool x x0 then ret None
  else
    L <- getattr "length_domain" length_domain ;;
    x0 <- lift (first L) ;;
    ret (Some (Equality (temperature t x0) (temperature t x))).

Definition add_isothermal_conditions (kwargs : Kwargs) : M unit :=
  base_add_isothermal_conditions kwargs ;;
  T <- gets time ;;
  L <- getattr "length_domain" length_domain ;;
  c <- Constraint (list_prod T L) eq_feed_isothermal ;;
  add_component "eq_feed_isothermal" c.

Definition _add_pressure_change {P : Type} (pressure_change_type : P)
  : M unit :=
  r <- getattr "deltaP" deltaP ;;
  modify (set_dP_dx r).

Definition calculate_scaling_factors : M unit :=
  base_calculate_scaling_factors ;;
  a <- getattr "area" area ;;
  sf <- get_scaling_factor a ;;
  (if match sf with Some q => Qeq_bool q 1 | None => false end
   then set_scaling_factor a 100
   else ret tt) ;;
  has <- hasattr pressure_change_total ;;
  (if has
   then
     vs <- getattr "pressure_change_total" pressure_change_total ;;
     for_each vs (fun v =>
       sf <- get_scaling_factor v ;;
       match sf with
       | None => set_scaling_factor v (1 # 10000)
       | Some _ => ret tt
       end)
   else ret tt) ;;
  has <- hasattr dP_dx ;;
  if has
  then
    vs <- getattr "pressure_dx" pressure_dx ;;
    for_each vs (fun v => set_scaling_factor v (1 # 100000))
  else
    vs <- getattr "pressure_dx" pressure_dx ;;
    for_each vs (fun v => set_scaling_factor v 100000).

End MembraneChannel1D.

(** ** Auxiliary functions for the proofs *)

(** The entries of [eq_feed_isothermal] over an index set, for a domain
    whose first point is [x0]. *)
Definition isothermal_entries (x0 : Q) (index : list (Q * Q))
  : IndexedConstraint :=
  flat_map
    (fun i =>
       if Qeq_bool (snd i) x0 then []
       else [(i, Equality (temperature (fst i) x0)
                          (temperature (fst i) (snd i)))])
    index.

(** The three passes of [calculate_scaling_factors] on the suffix: the
    area [a], the members [vs] of [pressure_change_total], and the members
    of [pressure_dx] with the factor [sf]. *)
Definition area_pass (a : var) (r : gmap var Q) : gmap var Q :=
  if match r !! a with Some q => Qeq_bool q 1 | None => false end
  then <[a := 100]> r
  else r.

Definition total_pass (vs : list var) (r : gmap var Q) : gmap var Q :=
  fold_left
    (fun r v => match r !! v with None => <[v := 1 # 10000]> r | Some _ => r end)
    vs r.

Definition gradient_pass (sf : Q) (vs : list var) (r : gmap var Q)
  : gmap var Q :=
  fold_left (fun r v => <[v := sf]> r) vs r.

(** The factor the gradient pass assigns on a block. *)
Definition gradient_factor (s : Block) : Q :=
  match dP_dx s with
  | Some _ => 1 # 100000
  | None => 100000
  end.

(** The members of an indexed variable that may be missing. *)
Definition members (o : option (list var)) : list var := default [] o.

(** The suffix after the three passes on a block whose area is [a]. *)
Definition scaled (a : var) (s0 : Block) : gmap var Q :=
  gradient_pass (gradient_factor s0) (members (pressure_dx s0))
    (total_pass (members (pressure_change_total s0))
       (area_pass a (scaling_factor s0))).

(** ** A small channel

    A block and stand-ins for the inherited methods, on which the
    properties below are exercised. *)

(** The points [0, 1/n, ..., 1] of a uniform grid of [n] elements. *)
Definition uniform_grid (n : positive) : list Q :=
  map (fun i => Z.of_nat i # n) (seq 0 (S (Pos.to_nat n))).

(** A discretization that replaces the two-point domain by a uniform
    grid. *)
Definition uniform_transformation (n : positive) : M unit :=
  _ <- getattr "length_domain" length_domain ;;
  modify (set_length_domain (uniform_grid n)).

(** A discretization that rejects its arguments. *)
Definition failing_transformation (n : positive) : M unit :=
  raise ConfigurationError.

(** A base scaling pass that gives the area the factor 1 when it has
    none. *)
Definition default_scaling : M unit :=
  a <- getattr "area" area ;;
  sf <- get_scaling_factor a ;;
  match sf with
  | None => set_scaling_factor a 1
  | Some _ => ret tt
  end.

Definition no_op {A : Type} (_ : A) : M unit := ret tt.

Definition no_op2 {A B : Type} (_ : A) (_ : B) : M unit := ret tt.

Definition channel_with (total gradient alias : option (list var)) : Block :=
  {| time := [0; 1 # 2];
     length_domain := Some [0; 1];
     first_element := None;
     difference_elements := None;
     nfe := None;
     area := Some 0%nat;
     pressure_change_total := total;
     pressure_dx := gradient;
     deltaP := Some [6%nat; 7%nat; 8%nat];
     dP_dx := alias;
     var_value := list_to_map [(0%nat, 1); (6%nat, 0); (7%nat, 0); (8%nat, 0)];
     constraints := [];
     scaling_factor := {[ 1%nat := 1 # 1000; 3%nat := 7 ]} |}.

Definition channel : Block :=
  channel_with (Some [1%nat; 2%nat]) (Some [3%nat; 4%nat; 5%nat]) None.

(** A reading of plain numerals, standing in for the builtin [int] on
    strings where an instance is needed: white space, a sign, decimal
    digits with single underscores between them, in ASCII. *)
Definition is_space (c : Ascii.ascii) : bool :=
  let n := Ascii.nat_of_ascii c in
  Nat.eqb n 32 || (Nat.leb 9 n && Nat.leb n 13).

Definition digit_of (c : Ascii.ascii) : option Z :=
  let n := Ascii.nat_of_ascii c in
  if Nat.leb 48 n && Nat.leb n 57 then Some (Z.of_nat (n - 48)) else None.

Fixpoint lstrip (s : string) : string :=
  match s with
  | String c s' => if is_space c then lstrip s' else s
  | EmptyString => s
  end.

(** Decimal digits, single underscores allowed between two digits, then
    optional trailing white space. [after_digit] tells whether the previous
    character was a digit. *)
Fixpoint digits (acc : Z) (after_digit : bool) (s : string) : option Z :=
  match s with
  | EmptyString => if after_digit then Some acc else None
  | String c s' =>
      match digit_of c with
      | Some d => digits (10 * acc + d) true s'
      | None =>
          if after_digit then
            if Ascii.eqb c "_"%char then
              match s' with
              | String c' _ =>
                  match digit_of c' with
                  | Some _ => digits acc false s'
                  | None => None
                  end
              | EmptyString => None
              end
            else if is_space c then
              match lstrip s' with
              | EmptyString => Some acc
              | _ => None
              end
            else None
          else None
      end
  end.

Definition ascii_numeral (s : string) : option Z :=
  match lstrip s with
  | String "-"%char s' => Z.opp <$> digits 0 false s'
  | String "+"%char s' => digits 0 false s'
  | s' => digits 0 false s'
  end.

Definition In_DistributedVars_member (v : pyval) : option pyval :=
  match v with
  | PyDistributedVars _ => Some v
  | _ => None
  end.

(** ** More on ordered sets *)

(** No two members are equal. *)
Fixpoint distinct (l : list Q) : bool :=
  match l with
  | [] => true
  | x :: l' => negb (mem x l') && distinct l'
  end.

(** ** More on the configuration *)

(** The options this file declares, with the default [ad] of
    [area_definition] as its validator returns it. *)
Definition declared_options (int_str : string -> option Z)
    (In_DistributedVars : pyval -> option pyval) (ad : pyval) : ConfigDict :=
  [("area_definition", mkConfigValue ad (Some In_DistributedVars));
   ("transformation_method", mkConfigValue PyUseDefault None);
   ("transformation_scheme", mkConfigValue PyUseDefault None);
   ("finite_elements", mkConfigValue (PyInt 20) (Some (int_domain int_str)));
   ("collocation_points",
    mkConfigValue (PyInt 5) (Some (int_domain int_str)))].


(** ** The geometry *)

(** [pyomo.environ.NonNegativeReals] *)
Inductive Domain : Type := NonNegativeReals.


(** What [Var(...)] is given. *)
Record VarDecl (U : Type) : Type := mkVarDecl {
  initialize : Q;
  bounds : Q * Q;
  var_domain : Domain;
  units : U;
  doc : string
}.
Arguments mkVarDecl {U} _ _ _ _ _.
Arguments initialize {U} _.
Arguments bounds {U} _.
Arguments var_domain {U} _.
Arguments units {U} _.
Arguments doc {U} _.

(** The block together with its attribute [width]: the variable and its
    declaration. *)
Record Channel (U : Type) : Type := mkChannel {
  block : Block;
  width : option (var * VarDecl U)
}.
Arguments mkChannel {U} _ _.
Arguments block {U} _.
Arguments width {U} _.

Section Geometry.

(** The inherited [add_geometry] and the derived units of the property
    package, [self.config.property_package.get_metadata()
    .get_derived_units]. *)
Context {Kwargs U : Type}.
Variable base_add_geometry : FlowDirection -> Kwargs -> M unit.
Variable units_meta : string -> M U.

(** The new [Var] is a new object; assigning it to [self.width] replaces
    the component the name held, if any. *)
Definition add_geometry (flow_direction : FlowDirection) (kwargs : Kwargs)
    (c : Channel U) : Channel U * result unit :=
  match base_add_geometry flow_direction kwargs (block c) with
  | (b1, Raise e) => (mkChannel b1 (width c), Raise e)
  | (b1, Ok _) =>
      match units_meta "length" b1 with
      | (b2, Raise e) => (mkChannel b2 (width c), Raise e)
      | (b2, Ok u) =>
          let vars :=
            match width c with
            | Some (w, _) => delete w (var_value b2)
            | None => var_value b2
            end in
          let v := fresh (dom vars) in
          (mkChannel
             (set_var_value (<[v := 1]> vars) b2)
             (Some (v, mkVarDecl 1 (1 # 10, 1000) NonNegativeReals u
                         "Membrane width")),
           Ok tt)
      end
  end.

End Geometry.

(** What an assignment that succeeds makes of an option. *)
Definition assigned (kwargs : list (string * pyval)) (n : string)
    (cv : ConfigValue) : ConfigValue :=
  match given n kwargs with
  | Some v =>
      match cast (domain cv) v with
      | Ok v' => mkConfigValue v' (domain cv)
      | Raise _ => cv
      end
  | None => cv
  end.

(** ** More stand-ins *)

(** A transformation that leaves the domain it is given. *)
Definition replace_domain (l : list Q) : M unit :=
  modify (set_length_domain l).

(** A block that has been given nothing. *)
Definition bare_block : Block :=
  {| time := [];
     length_domain := None;
     first_element := None;
     difference_elements := None;
     nfe := None;
     area := None;
     pressure_change_total := None;
     pressure_dx := None;
     deltaP := None;
     dP_dx := None;
     var_value := ∅;
     constraints := [];
     scaling_factor := ∅ |}.


Definition no_units (quantity : string) : M string :=
  raise (AttributeError "property_package").

(** * Properties *)

(** ** The monad *)

Lemma bind_ok {A B} (m : M A) (k : A -> M B) s s1 a :
  m s = (s1, Ok a) -> bind m k s = k a s1.
Proof. intros H. unfold bind. now rewrite H. Qed.

Lemma bind_raise {A B} (m : M A) (k : A -> M B) s s1 e :
  m s = (s1, Raise e) -> bind m k s = (s1, Raise e).
Proof. intros H. unfold bind. now rewrite H. Qed.

Lemma bind_inv_ok {A B} (m : M A) (k : A -> M B) s s' b :
  bind m k s = (s', Ok b) ->
  exists s1 a, m s = (s1, Ok a) /\ k a s1 = (s', Ok b).
Proof.
  unfold bind. destruct (m s) as [s1 [a | e]]; intros H.
  - now exists s1, a.
  - discriminate H.
Qed.

Lemma getattr_some {A} name (f : Block -> option A) s a :
  f s = Some a -> getattr name f s = (s, Ok a).
Proof. intros H. unfold getattr. now rewrite H. Qed.

Lemma getattr_none {A} name (f : Block -> option A) s :
  f s = None -> getattr name f s = (s, Raise (AttributeError name)).
Proof. intros H. unfold getattr. now rewrite H. Qed.

(** ** Increasing lists *)

Lemma Qlt_bool_lt x y : Qlt_bool x y = true -> x < y.
Proof.
  unfold Qlt_bool. intros H. apply Qnot_le_lt. intros Hle.
  apply Qle_bool_iff in Hle. rewrite Hle in H. discriminate H.
Qed.

Lemma Qlt_bool_neq x y : Qlt_bool x y = true -> Qeq_bool y x = false.
Proof.
  intros H. apply Qlt_bool_lt in H.
  destruct (Qeq_bool y x) eqn:E; [| reflexivity].
  apply Qeq_bool_iff in E. rewrite E in H. now apply Qlt_irrefl in H.
Qed.

Lemma Qeq_bool_refl x : Qeq_bool x x = true.
Proof. apply Qeq_bool_iff. reflexivity. Qed.

Lemma filter_above x l :
  forallb (Qlt_bool x) l = true ->
  List.filter (fun y => negb (Qeq_bool y x)) l = l.
Proof.
  induction l as [| y l IH]; simpl; [reflexivity |].
  intros H. apply andb_prop in H as [Hy Hl].
  rewrite (Qlt_bool_neq _ _ Hy). simpl. now rewrite IH.
Qed.

Lemma filter_first x l :
  increasing (x :: l) = true ->
  List.filter (fun y => negb (Qeq_bool y x)) (x :: l) = l.
Proof.
  simpl. intros H. apply andb_prop in H as [Hx _].
  rewrite Qeq_bool_refl. simpl. now apply filter_above.
Qed.

Lemma Set_ordered_increasing l : increasing l = true -> Set_ordered l = l.
Proof.
  induction l as [| x l IH]; simpl; [reflexivity |].
  intros H. apply andb_prop in H as [Hx Hl].
  rewrite (IH Hl). now rewrite filter_above.
Qed.

Lemma increasing_tail x l : increasing (x :: l) = true -> increasing l = true.
Proof. simpl. intros H. now apply andb_prop in H as [_ Hl]. Qed.

Lemma min_from_below x l :
  forallb (Qlt_bool x) l = true -> min_from x l = x.
Proof.
  induction l as [| y l IH]; simpl; [reflexivity |].
  intros H. apply andb_prop in H as [Hy Hl].
  assert (Hn : Qlt_bool y x = false).
  { unfold Qlt_bool. apply Qlt_bool_lt, Qlt_le_weak, Qle_bool_iff in Hy.
    now rewrite Hy. }
  rewrite Hn. now apply IH.
Qed.

Lemma min_increasing x l : increasing (x :: l) = true -> min (x :: l) = Ok x.
Proof.
  simpl. intros H. apply andb_prop in H as [Hx _].
  now rewrite min_from_below.
Qed.

Lemma mem_In x l : mem x l = true <-> exists y, In y l /\ x == y.
Proof.
  unfold mem. rewrite existsb_exists.
  split; intros [y [Hy E]]; exists y; split; auto; now apply Qeq_bool_iff.
Qed.

Lemma subset_mem l1 l2 x :
  subset l1 l2 = true -> mem x l1 = true -> mem x l2 = true.
Proof.
  unfold subset. rewrite forallb_forall. intros Hs Hx.
  apply mem_In in Hx as [y [Hy E]].
  specialize (Hs y Hy). apply mem_In in Hs as [z [Hz E']].
  apply mem_In. exists z. split; [assumption |]. now rewrite E.
Qed.

Lemma len_tail {A} (x : A) l : len l = (len (x :: l) - 1)%Z.
Proof. unfold len. simpl length. lia. Qed.

(** ** The grid: [apply_transformation] and [add_state_blocks] *)

Section Grid.

Context {Args : Type}.
Variable base_apply_transformation : Args -> M unit.
Variable base_add_state_blocks : FlowDirection -> option bool -> M unit.
Variable _add_interface_stateblock : option bool -> M unit.

(** What [apply_transformation] does once the inherited transformation
    has returned with a non-empty domain. *)
Lemma apply_transformation_after_base args s s1 x l :
  base_apply_transformation args s = (s1, Ok tt) ->
  length_domain s1 = Some (x :: l) ->
  let de := Set_ordered (List.filter (fun y => negb (Qeq_bool y x)) (x :: l)) in
  apply_transformation base_apply_transformation args s =
    (set_nfe (len de) (set_difference_elements de (set_first_element x s1)),
     Ok tt).
Proof.
  intros Hb Hd de. unfold apply_transformation.
  rewrite (bind_ok _ _ _ _ _ Hb).
  rewrite (bind_ok _ _ _ _ _ (getattr_some _ _ _ _ Hd)).
  unfold bind, lift, first, modify, getattr. simpl. rewrite Hd. reflexivity.
Qed.

Lemma apply_transformation_inv args s s' :
  apply_transformation base_apply_transformation args s = (s', Ok tt) ->
  exists s1 x l,
    base_apply_transformation args s = (s1, Ok tt) /\
    length_domain s1 = Some (x :: l).
Proof.
  unfold apply_transformation. intros H.
  apply bind_inv_ok in H as (s1 & [] & Hb & H).
  apply bind_inv_ok in H as (s2 & L & Hg & H).
  unfold getattr in Hg. destruct (length_domain s1) as [L1 |] eqn:Hd;
    [| discriminate Hg].
  injection Hg as <- <-.
  apply bind_inv_ok in H as (s3 & x0 & Hf & _).
  unfold lift in Hf. destruct L1 as [| x l]; [discriminate Hf |].
  now exists s1, x, l.
Qed.

(** C2. When the inherited transformation returns a strictly increasing
    domain that keeps the points of the domain it was given, among them
    0 and 1, [apply_transformation] returns; the domain contains 0 and 1,
    [difference_elements] is the domain without its first point, in
    order, and [nfe] is its size, one less than the size of the
    domain. *)
Theorem apply_transformation_domain args s s1 L0 L :
  length_domain s = Some L0 ->
  mem 0 L0 = true ->
  mem 1 L0 = true ->
  base_apply_transformation args s = (s1, Ok tt) ->
  length_domain s1 = Some L ->
  increasing L = true ->
  subset L0 L = true ->
  exists s',
    apply_transformation base_apply_transformation args s = (s', Ok tt) /\
    length_domain s' = Some L /\
    mem 0 L = true /\
    mem 1 L = true /\
    difference_elements s' = Some (tl L) /\
    nfe s' = Some (len (tl L)) /\
    len (tl L) = (len L - 1)%Z.
Proof.
  intros _ H0 H1 Hb Hd Hinc Hsub.
  pose proof (subset_mem _ _ _ Hsub H0) as M0.
  pose proof (subset_mem _ _ _ Hsub H1) as M1.
  destruct L as [| x l]; [discriminate M0 |].
  eexists. split; [apply (apply_transformation_after_base _ _ _ _ _ Hb Hd) |].
  rewrite (filter_first _ _ Hinc).
  rewrite (Set_ordered_increasing _ (increasing_tail _ _ Hinc)).
  simpl. repeat split; auto. apply len_tail.
Qed.

Lemma add_state_blocks_inv information_flow has_phase_equilibrium s s' :
  add_state_blocks base_add_state_blocks _add_interface_stateblock
    information_flow has_phase_equilibrium s = (s', Ok tt) ->
  exists s1 x l,
    base_add_state_blocks information_flow has_phase_equilibrium s
      = (s1, Ok tt) /\
    length_domain s1 = Some (x :: l) /\
    _add_interface_stateblock has_phase_equilibrium (set_first_element x s1)
      = (s', Ok tt).
Proof.
  unfold add_state_blocks. intros H.
  apply bind_inv_ok in H as (s1 & [] & Hb & H).
  apply bind_inv_ok in H as (s2 & L & Hg & H).
  unfold getattr in Hg. destruct (length_domain s1) as [L1 |] eqn:Hd;
    [| discriminate Hg].
  injection Hg as <- <-.
  apply bind_inv_ok in H as (s3 & x0 & Hf & H).
  unfold lift in Hf. destruct L1 as [| x l]; [discriminate Hf |].
  injection Hf as <- <-.
  apply bind_inv_ok in H as (s4 & [] & Hm & H).
  unfold modify in Hm. injection Hm as <-.
  now exists s1, x, l.
Qed.

(** [add_state_blocks] returns when its three steps do. *)
Lemma add_state_blocks_returns information_flow has_phase_equilibrium
    s s1 x l s' :
  base_add_state_blocks information_flow has_phase_equilibrium s
    = (s1, Ok tt) ->
  length_domain s1 = Some (x :: l) ->
  _add_interface_stateblock has_phase_equilibrium (set_first_element x s1)
    = (s', Ok tt) ->
  add_state_blocks base_add_state_blocks _add_interface_stateblock
    information_flow has_phase_equilibrium s = (s', Ok tt).
Proof.
  intros Hb Hd Hi. unfold add_state_blocks.
  rewrite (bind_ok _ _ _ _ _ Hb).
  rewrite (bind_ok _ _ _ _ _ (getattr_some _ _ _ _ Hd)).
  unfold bind, lift, first, modify. exact Hi.
Qed.

(** C9. After [apply_transformation], and after [add_state_blocks]
    whatever the direction of flow, [first_element] is the minimum of the
    length domain, provided the domain is strictly increasing and the
    interface state block leaves the domain and [first_element] alone. *)
Theorem first_element_is_minimum :
  (forall args s s' L,
      apply_transformation base_apply_transformation args s = (s', Ok tt) ->
      length_domain s' = Some L ->
      increasing L = true ->
      exists m, min L = Ok m /\ first_element s' = Some m) /\
  (forall (information_flow : FlowDirection) has_phase_equilibrium s s' L,
      (forall s2 s3,
          _add_interface_stateblock has_phase_equilibrium s2 = (s3, Ok tt) ->
          length_domain s3 = length_domain s2 /\
          first_element s3 = first_element s2) ->
      add_state_blocks base_add_state_blocks _add_interface_stateblock
        information_flow has_phase_equilibrium s = (s', Ok tt) ->
      length_domain s' = Some L ->
      increasing L = true ->
      exists m, min L = Ok m /\ first_element s' = Some m).
Proof.
  split.
  - intros args s s' L H HL Hinc.
    destruct (apply_transformation_inv _ _ _ H) as (s1 & x & l & Hb & Hd).
    rewrite (apply_transformation_after_base _ _ _ _ _ Hb Hd) in H.
    injection H as <-. simpl in HL. rewrite Hd in HL. injection HL as <-.
    exists x. split; [now apply min_increasing | reflexivity].
  - intros information_flow hpe s s' L Hframe H HL Hinc.
    destruct (add_state_blocks_inv _ _ _ _ H) as (s1 & x & l & Hb & Hd & Hi).
    destruct (Hframe _ _ Hi) as [Fd Ff]. simpl in Fd, Ff.
    rewrite HL, Hd in Fd. injection Fd as ->.
    exists x. split; [now apply min_increasing | exact Ff].
Qed.

End Grid.

(** ** The isothermal constraint *)

Lemma eq_feed_isothermal_rule t x s x0 l :
  length_domain s = Some (x0 :: l) ->
  eq_feed_isothermal t x s =
    (s, Ok (if Qeq_bool x x0 then None
            else Some (Equality (temperature t x0) (temperature t x)))).
Proof.
  intros Hd. unfold eq_feed_isothermal, bind, getattr, lift, first, ret.
  rewrite Hd. destruct (Qeq_bool x x0); [reflexivity |].
  now rewrite Hd.
Qed.

Lemma Constraint_eq_feed_isothermal index s x0 l :
  length_domain s = Some (x0 :: l) ->
  Constraint index eq_feed_isothermal s = (s, Ok (isothermal_entries x0 index)).
Proof.
  intros Hd. induction index as [| [t x] index IH]; [reflexivity |].
  simpl. rewrite (bind_ok _ _ _ _ _ (eq_feed_isothermal_rule t x s x0 l Hd)).
  rewrite (bind_ok _ _ _ _ _ IH). unfold ret.
  now destruct (Qeq_bool x x0).
Qed.

Lemma isothermal_entries_In x0 index i r :
  In (i, r) (isothermal_entries x0 index) <->
  In i index /\ Qeq_bool (snd i) x0 = false /\
  r = Equality (temperature (fst i) x0) (temperature (fst i) (snd i)).
Proof.
  unfold isothermal_entries. rewrite in_flat_map. split.
  - intros [j [Hj H]]. destruct (Qeq_bool (snd j) x0) eqn:E; [destruct H |].
    destruct H as [H | []]. injection H as <- <-. auto.
  - intros (Hi & E & ->). exists i. split; [assumption |].
    rewrite E. now left.
Qed.

Lemma isothermal_entries_row x0 t l :
  forallb (Qlt_bool x0) l = true ->
  length (isothermal_entries x0 (map (fun x => (t, x)) l)) = length l.
Proof.
  induction l as [| y l IH]; [reflexivity |].
  simpl. intros H. apply andb_prop in H as [Hy Hl].
  rewrite (Qlt_bool_neq _ _ Hy). simpl. now rewrite (IH Hl).
Qed.

Lemma isothermal_entries_app x0 i1 i2 :
  isothermal_entries x0 (i1 ++ i2) =
  (isothermal_entries x0 i1 ++ isothermal_entries x0 i2)%list.
Proof. unfold isothermal_entries. apply flat_map_app. Qed.

Lemma isothermal_entries_length x0 T l :
  increasing (x0 :: l) = true ->
  length (isothermal_entries x0 (list_prod T (x0 :: l))) =
  (length T * length l)%nat.
Proof.
  intros Hinc. simpl in Hinc. apply andb_prop in Hinc as [Hx _].
  induction T as [| t T IH]; [reflexivity |].
  cbn [list_prod]. rewrite isothermal_entries_app, length_app, IH.
  cbn [map]. unfold isothermal_entries at 1. cbn [flat_map snd].
  rewrite Qeq_bool_refl. cbn [app].
  fold (isothermal_entries x0 (map (fun y => (t, y)) l)).
  rewrite (isothermal_entries_row _ _ _ Hx). reflexivity.
Qed.

Lemma lookup_component_app name cs c :
  lookup_component name cs = None ->
  lookup_component name (cs ++ [(name, c)]) = Some c.
Proof.
  induction cs as [| [n c'] cs IH]; simpl.
  - now rewrite String.eqb_refl.
  - destruct (String.eqb n name); [discriminate | exact IH].
Qed.

Section Isothermal.

Context {Kwargs : Type}.
Variable base_add_isothermal_conditions : Kwargs -> M unit.

(** C1. When the inherited method returns, the domain is strictly
    increasing with first point [x0] and the name is free,
    [add_isothermal_conditions] returns, having declared the component
    [eq_feed_isothermal]: at a time [t] and a point [x] of the domain it
    has no entry when [x] is the first point, and otherwise the one
    entry that equates the temperature at [(t, x)] with the temperature
    at [(t, x0)]; it has [|time| * (|length_domain| - 1)] entries. *)
Theorem isothermal_constraints kwargs s s1 L x0 :
  base_add_isothermal_conditions kwargs s = (s1, Ok tt) ->
  length_domain s1 = Some L ->
  first L = Ok x0 ->
  increasing L = true ->
  lookup_component "eq_feed_isothermal" (constraints s1) = None ->
  exists s' c,
    add_isothermal_conditions base_add_isothermal_conditions kwargs s
      = (s', Ok tt) /\
    constraints s' = (constraints s1 ++ [("eq_feed_isothermal", c)])%list /\
    lookup_component "eq_feed_isothermal" (constraints s') = Some c /\
    (forall t x, In t (time s1) -> In x L ->
       if Qeq_bool x x0
       then forall r, ~ In ((t, x), r) c
       else
         let r := Equality (temperature t x0) (temperature t x) in
         In ((t, x), r) c /\
         (forall r', In ((t, x), r') c -> r' = r) /\
         (forall T, holds T r <-> T t x == T t x0)) /\
    (forall t x r, In ((t, x), r) c -> In t (time s1) /\ In x L) /\
    len c = (len (time s1) * (len L - 1))%Z.
Proof.
  intros Hb Hd Hf Hinc Hfree.
  destruct L as [| x1 l]; [discriminate Hf |]. injection Hf as ->.
  exists (set_constraints
            (constraints s1 ++
             [("eq_feed_isothermal",
               isothermal_entries x0 (list_prod (time s1) (x0 :: l)))]) s1),
    (isothermal_entries x0 (list_prod (time s1) (x0 :: l))).
  split.
  { unfold add_isothermal_conditions.
    rewrite (bind_ok _ _ _ _ _ Hb).
    unfold bind at 1, gets.
    rewrite (bind_ok _ _ _ _ _ (getattr_some _ _ _ _ Hd)).
    rewrite (bind_ok _ _ _ _ _
               (Constraint_eq_feed_isothermal _ _ _ _ Hd)).
    unfold add_component. now rewrite Hfree. }
  split; [reflexivity |].
  split; [now apply lookup_component_app |].
  split; [| split].
  - intros t x Ht Hx. destruct (Qeq_bool x x0) eqn:E.
    + intros r Hr. apply isothermal_entries_In in Hr as (_ & E' & _).
      simpl in E'. congruence.
    + split; [| split].
      * apply isothermal_entries_In. repeat split; auto.
        now apply in_prod.
      * intros r' Hr'. now apply isothermal_entries_In in Hr' as (_ & _ & ->).
      * intros T. simpl. split; intros H; now symmetry.
  - intros t x r Hr. apply isothermal_entries_In in Hr as (Hi & _).
    now apply in_prod_iff in Hi.
  - unfold len. rewrite (isothermal_entries_length _ _ _ Hinc).
    simpl length. lia.
Qed.

End Isothermal.

(** ** Scaling factors *)

Lemma set_scaling_id s : set_scaling (scaling_factor s) s = s.
Proof. now destruct s. Qed.

Lemma for_each_set_scaling_factor sf vs s :
  for_each vs (fun v => set_scaling_factor v sf) s =
  (set_scaling (gradient_pass sf vs (scaling_factor s)) s, Ok tt).
Proof.
  revert s. induction vs as [| v vs IH]; intros s; simpl.
  - unfold ret. now rewrite set_scaling_id.
  - unfold bind at 1, set_scaling_factor, modify. rewrite IH. reflexivity.
Qed.

Lemma for_each_total vs s :
  for_each vs (fun v =>
    sf <- get_scaling_factor v ;;
    match sf with
    | None => set_scaling_factor v (1 # 10000)
    | Some _ => ret tt
    end) s =
  (set_scaling (total_pass vs (scaling_factor s)) s, Ok tt).
Proof.
  revert s. induction vs as [| v vs IH]; intros s; simpl.
  - unfold ret. now rewrite set_scaling_id.
  - unfold bind at 1. unfold bind at 1, get_scaling_factor, gets.
    destruct (scaling_factor s !! v) as [q |] eqn:E.
    + unfold ret. rewrite IH. unfold total_pass. cbn [fold_left].
      now rewrite ?E.
    + unfold set_scaling_factor, modify. rewrite IH.
      unfold total_pass. cbn [fold_left]. now rewrite ?E.
Qed.

Lemma gradient_pass_In sf vs r v :
  In v vs -> gradient_pass sf vs r !! v = Some sf.
Proof.
  unfold gradient_pass. revert r.
  induction vs as [| w vs IH]; intros r; simpl; [intros [] |].
  intros [-> | Hin].
  - destruct (in_dec Nat.eq_dec v vs) as [Hv | Hv]; [now apply IH |].
    clear IH. revert r. induction vs as [| u vs IH]; intros r; simpl.
    + apply lookup_insert_eq.
    + rewrite insert_insert_ne by (intros <-; apply Hv; now left).
      apply IH. intros H. apply Hv. now right.
  - now apply IH.
Qed.

Lemma gradient_pass_not_In sf vs r v :
  ~ In v vs -> gradient_pass sf vs r !! v = r !! v.
Proof.
  unfold gradient_pass. revert r.
  induction vs as [| w vs IH]; intros r Hv; simpl; [reflexivity |].
  rewrite IH by (intros H; apply Hv; now right).
  apply lookup_insert_ne. intros ->. apply Hv. now left.
Qed.

Lemma total_pass_Some vs r v q :
  r !! v = Some q -> total_pass vs r !! v = Some q.
Proof.
  unfold total_pass. revert r.
  induction vs as [| w vs IH]; intros r Hv; simpl; [assumption |].
  apply IH. destruct (r !! w) eqn:E; [assumption |].
  rewrite lookup_insert_ne; [assumption | congruence].
Qed.

Lemma total_pass_not_In vs r v :
  ~ In v vs -> total_pass vs r !! v = r !! v.
Proof.
  unfold total_pass. revert r.
  induction vs as [| w vs IH]; intros r Hv; simpl; [reflexivity |].
  rewrite IH by (intros H; apply Hv; now right).
  destruct (r !! w); [reflexivity |].
  apply lookup_insert_ne. intros ->. apply Hv. now left.
Qed.

Lemma total_pass_inv vs r v q :
  total_pass vs r !! v = Some q -> r !! v = Some q \/ q = 1 # 10000.
Proof.
  unfold total_pass. revert r.
  induction vs as [| w vs IH]; intros r H; simpl in H; [now left |].
  apply IH in H as [H | H]; [| now right].
  destruct (r !! w) eqn:E; [now left |].
  destruct (decide (w = v)) as [-> | Hne].
  - rewrite lookup_insert_eq in H. injection H as <-. now right.
  - rewrite lookup_insert_ne in H by assumption. now left.
Qed.

Lemma area_pass_ne a r v : v <> a -> area_pass a r !! v = r !! v.
Proof.
  intros Hne. unfold area_pass.
  destruct (match r !! a with Some q => Qeq_bool q 1 | None => false end);
    [| reflexivity].
  now apply lookup_insert_ne.
Qed.

Lemma area_pass_eq a r :
  area_pass a r !! a =
  match r !! a with
  | Some q => if Qeq_bool q 1 then Some 100 else Some q
  | None => None
  end.
Proof.
  unfold area_pass. destruct (r !! a) as [q |] eqn:E; [| assumption].
  destruct (Qeq_bool q 1); [apply lookup_insert_eq | assumption].
Qed.

Lemma area_pass_not_one a r q :
  area_pass a r !! a = Some q -> Qeq_bool q 1 = false.
Proof.
  rewrite area_pass_eq. destruct (r !! a) as [q' |]; [| discriminate].
  destruct (Qeq_bool q' 1) eqn:E; intros H; injection H as <-;
    [reflexivity | assumption].
Qed.

Lemma area_pass_keeps a r v q :
  r !! v = Some q -> (v = a -> Qeq_bool q 1 = false) ->
  area_pass a r !! v = Some q.
Proof.
  intros Hv Hq. destruct (decide (v = a)) as [-> | Hne].
  - rewrite area_pass_eq, Hv. now rewrite Hq.
  - now rewrite area_pass_ne.
Qed.

Lemma gradient_factor_not_one s : Qeq_bool (gradient_factor s) 1 = false.
Proof. unfold gradient_factor. now destruct (dP_dx s). Qed.


Section Scaling.

Variable base_calculate_scaling_factors : M unit.

(** How [calculate_scaling_factors] ends once the inherited pass has
    returned on a block with an area. *)
Lemma calculate_scaling_factors_with_area s s0 a :
  base_calculate_scaling_factors s = (s0, Ok tt) ->
  area s0 = Some a ->
  calculate_scaling_factors base_calculate_scaling_factors s =
    (set_scaling (scaled a s0) s0,
     match pressure_dx s0 with
     | Some _ => Ok tt
     | None => Raise (AttributeError "pressure_dx")
     end).
Proof.
  intros Hb Ha. unfold calculate_scaling_factors.
  rewrite (bind_ok _ _ _ _ _ Hb).
  rewrite (bind_ok _ _ _ _ _ (getattr_some _ _ _ _ Ha)).
  unfold bind at 1, get_scaling_factor, gets.
  assert (Harea :
    (if match scaling_factor s0 !! a with
        | Some q => Qeq_bool q 1
        | None => false
        end
     then set_scaling_factor a 100 else ret tt) s0
    = (set_scaling (area_pass a (scaling_factor s0)) s0, Ok tt)).
  { unfold area_pass.
    destruct (match scaling_factor s0 !! a with
              | Some q => Qeq_bool q 1
              | None => false
              end); [reflexivity |].
    unfold ret. now rewrite set_scaling_id. }
  rewrite (bind_ok _ _ _ _ _ Harea).
  unfold bind at 1, hasattr, gets. unfold scaled, gradient_factor, members.
  cbn [pressure_change_total pressure_dx dP_dx set_scaling].
  assert (Hgrad : forall r,
    (has <- hasattr dP_dx ;;
     if has
     then
       vs <- getattr "pressure_dx" pressure_dx ;;
       for_each vs (fun v => set_scaling_factor v (1 # 100000))
     else
       vs <- getattr "pressure_dx" pressure_dx ;;
       for_each vs (fun v => set_scaling_factor v 100000)) (set_scaling r s0)
    = (set_scaling
         (gradient_pass
            match dP_dx s0 with Some _ => 1 # 100000 | None => 100000 end
            (default [] (pressure_dx s0)) r) s0,
       match pressure_dx s0 with
       | Some _ => Ok tt
       | None => Raise (AttributeError "pressure_dx")
       end)).
  { intros r. unfold bind at 1, hasattr, gets. cbn [dP_dx set_scaling].
    destruct (pressure_dx s0) as [vs |] eqn:Hdx; cbn [default].
    - destruct (dP_dx s0); unfold bind, getattr;
        cbn [pressure_dx set_scaling]; rewrite Hdx;
        rewrite for_each_set_scaling_factor; reflexivity.
    - destruct (dP_dx s0); unfold bind, getattr;
        cbn [pressure_dx set_scaling]; rewrite Hdx; reflexivity. }
  destruct (pressure_change_total s0) as [ts |] eqn:Ht; cbn [default].
  - unfold bind at 1. unfold bind at 1, getattr.
    cbn [pressure_change_total set_scaling]. rewrite Ht.
    rewrite for_each_total. cbn [scaling_factor set_scaling].
    apply Hgrad.
  - unfold bind at 1, ret. apply Hgrad.
Qed.

Lemma calculate_scaling_factors_without_area s s0 :
  base_calculate_scaling_factors s = (s0, Ok tt) ->
  area s0 = None ->
  calculate_scaling_factors base_calculate_scaling_factors s =
    (s0, Raise (AttributeError "area")).
Proof.
  intros Hb Ha. unfold calculate_scaling_factors.
  rewrite (bind_ok _ _ _ _ _ Hb).
  now rewrite (bind_raise _ _ _ _ _ (getattr_none _ _ _ Ha)).
Qed.

Lemma calculate_scaling_factors_inv s s1 :
  calculate_scaling_factors base_calculate_scaling_factors s = (s1, Ok tt) ->
  exists s0 a vs,
    base_calculate_scaling_factors s = (s0, Ok tt) /\
    area s0 = Some a /\
    pressure_dx s0 = Some vs /\
    s1 = set_scaling (scaled a s0) s0.
Proof.
  intros H.
  destruct (base_calculate_scaling_factors s) as [s0 [[] | e]] eqn:Hb.
  - destruct (area s0) as [a |] eqn:Ha.
    + rewrite (calculate_scaling_factors_with_area _ _ _ Hb Ha) in H.
      destruct (pressure_dx s0) as [vs |] eqn:Hdx; [| discriminate H].
      injection H as <-. now exists s0, a, vs.
    + rewrite (calculate_scaling_factors_without_area _ _ Hb Ha) in H.
      discriminate H.
  - unfold calculate_scaling_factors in H.
    rewrite (bind_raise _ _ _ _ _ Hb) in H. discriminate H.
Qed.

(** The factor of a variable after the three passes. *)
Lemma scaled_gradient a s0 v :
  In v (members (pressure_dx s0)) ->
  scaled a s0 !! v = Some (gradient_factor s0).
Proof. intros H. unfold scaled. now apply gradient_pass_In. Qed.

Lemma scaled_area a s0 :
  ~ In a (members (pressure_change_total s0)) ->
  ~ In a (members (pressure_dx s0)) ->
  scaled a s0 !! a =
  match scaling_factor s0 !! a with
  | Some q => if Qeq_bool q 1 then Some 100 else Some q
  | None => None
  end.
Proof.
  intros Ht Hg. unfold scaled.
  rewrite gradient_pass_not_In, total_pass_not_In by assumption.
  apply area_pass_eq.
Qed.

Lemma scaled_area_not_one a s0 q :
  scaled a s0 !! a = Some q -> Qeq_bool q 1 = false.
Proof.
  unfold scaled. intros H.
  destruct (in_dec Nat.eq_dec a (members (pressure_dx s0))) as [Hin | Hin].
  - rewrite gradient_pass_In in H by assumption. injection H as <-.
    apply gradient_factor_not_one.
  - rewrite gradient_pass_not_In in H by assumption.
    apply total_pass_inv in H as [H | ->]; [| reflexivity].
    now apply area_pass_not_one in H.
Qed.

(** Once the three passes have run, running them again on a suffix that
    kept every factor keeps every factor. *)
Lemma scaled_again a s0 s1 v q :
  pressure_dx s1 = pressure_dx s0 ->
  dP_dx s1 = dP_dx s0 ->
  (forall w p, scaled a s0 !! w = Some p -> scaling_factor s1 !! w = Some p) ->
  scaled a s0 !! v = Some q ->
  scaled a s1 !! v = Some q.
Proof.
  intros Hdx Hal Hkeep Hv. unfold scaled at 1.
  unfold gradient_factor. rewrite Hdx, Hal.
  fold (gradient_factor s0).
  destruct (in_dec Nat.eq_dec v (members (pressure_dx s0))) as [Hin | Hin].
  - rewrite gradient_pass_In by assumption.
    now rewrite scaled_gradient in Hv.
  - rewrite gradient_pass_not_In by assumption.
    apply total_pass_Some, area_pass_keeps; [now apply Hkeep |].
    intros ->. now apply scaled_area_not_one in Hv.
Qed.

(** C3. A second call of [calculate_scaling_factors], whose inherited
    pass keeps the factors that are set and the attributes of the block,
    returns and leaves unchanged the factor the area has and the factor
    every member of [pressure_change_total] has; every member of
    [pressure_dx] has after the first call, whatever it had before, and
    again after the second, the factor 1e-5 when [dP_dx] exists and 1e5
    when it does not. *)
Theorem scaling_twice s s1 s1b :
  calculate_scaling_factors base_calculate_scaling_factors s = (s1, Ok tt) ->
  base_calculate_scaling_factors s1 = (s1b, Ok tt) ->
  (forall v q,
      scaling_factor s1 !! v = Some q -> scaling_factor s1b !! v = Some q) ->
  area s1b = area s1 ->
  pressure_change_total s1b = pressure_change_total s1 ->
  pressure_dx s1b = pressure_dx s1 ->
  dP_dx s1b = dP_dx s1 ->
  exists s2,
    calculate_scaling_factors base_calculate_scaling_factors s1
      = (s2, Ok tt) /\
    (forall a q,
        area s1 = Some a ->
        scaling_factor s1 !! a = Some q ->
        scaling_factor s2 !! a = Some q) /\
    (forall vs v q,
        pressure_change_total s1 = Some vs -> In v vs ->
        scaling_factor s1 !! v = Some q ->
        scaling_factor s2 !! v = Some q) /\
    (forall vs v,
        pressure_dx s1 = Some vs -> In v vs ->
        let sf :=
          match dP_dx s1 with Some _ => 1 # 100000 | None => 100000 end in
        scaling_factor s1 !! v = Some sf /\
        scaling_factor s2 !! v = Some sf).
Proof.
  intros H1 Hb Hkeep Ha Ht Hdx Hal.
  destruct (calculate_scaling_factors_inv _ _ H1)
    as (s0 & a & vs & Hb0 & Ha0 & Hdx0 & ->).
  cbn [area pressure_change_total pressure_dx dP_dx scaling_factor
       set_scaling] in *.
  rewrite Ha0 in Ha. rewrite Hdx0 in Hdx.
  exists (set_scaling (scaled a s1b) s1b). split.
  { rewrite (calculate_scaling_factors_with_area _ _ _ Hb Ha).
    now rewrite Hdx. }
  cbn [scaling_factor set_scaling].
  assert (Hdx' : pressure_dx s1b = pressure_dx s0) by congruence.
  assert (Hagain : forall v q,
             scaled a s0 !! v = Some q -> scaled a s1b !! v = Some q).
  { intros v q. now apply scaled_again. }
  split; [| split].
  - intros a' q Ha' Hq. cbn [area set_scaling] in Ha'.
    rewrite Ha0 in Ha'. injection Ha' as <-. now apply Hagain.
  - intros ts v q _ _ Hq. now apply Hagain.
  - intros vs' v Hvs Hin. cbv zeta. cbn [pressure_dx dP_dx set_scaling] in *.
    rewrite Hdx0 in Hvs. injection Hvs as <-.
    fold (gradient_factor s0).
    assert (Hs : scaled a s0 !! v = Some (gradient_factor s0)).
    { apply scaled_gradient. rewrite Hdx0. exact Hin. }
    split; [exact Hs | now apply Hagain].
Qed.

(** C5. On a block with an area and a [pressure_dx], once the inherited
    pass has returned, [calculate_scaling_factors] returns and every
    member of [pressure_dx] has the factor 1e-5 if [dP_dx] exists and
    1e5 if it does not; the product of the two factors is 1. *)
Theorem gradient_scaling s s0 a vs :
  base_calculate_scaling_factors s = (s0, Ok tt) ->
  area s0 = Some a ->
  pressure_dx s0 = Some vs ->
  exists s',
    calculate_scaling_factors base_calculate_scaling_factors s
      = (s', Ok tt) /\
    (forall v, In v vs ->
       (is_Some (dP_dx s0) -> scaling_factor s' !! v = Some (1 # 100000)) /\
       (dP_dx s0 = None -> scaling_factor s' !! v = Some 100000)) /\
    (1 # 100000) * 100000 == 1.
Proof.
  intros Hb Ha Hdx. exists (set_scaling (scaled a s0) s0). split.
  { rewrite (calculate_scaling_factors_with_area _ _ _ Hb Ha).
    now rewrite Hdx. }
  split; [| reflexivity].
  intros v Hin. cbn [scaling_factor set_scaling].
  rewrite scaled_gradient by (now rewrite Hdx).
  unfold gradient_factor. split.
  - intros [r ->]. reflexivity.
  - intros ->. reflexivity.
Qed.

(** C7. On a block whose area is a variable of its own, once the
    inherited pass has returned, [calculate_scaling_factors] leaves the
    area with the factor 100 if the factor it had was equal to 1, and
    with the factor it had, or none, otherwise. *)
Theorem area_scaling s s0 a :
  base_calculate_scaling_factors s = (s0, Ok tt) ->
  area s0 = Some a ->
  ~ In a (members (pressure_change_total s0)) ->
  ~ In a (members (pressure_dx s0)) ->
  exists s' r,
    calculate_scaling_factors base_calculate_scaling_factors s = (s', r) /\
    scaling_factor s' !! a =
    match scaling_factor s0 !! a with
    | Some q => if Qeq_bool q 1 then Some 100 else Some q
    | None => None
    end.
Proof.
  intros Hb Ha Ht Hg. eexists _, _. split.
  - apply (calculate_scaling_factors_with_area _ _ _ Hb Ha).
  - cbn [scaling_factor set_scaling]. now apply scaled_area.
Qed.

(** C10. Once the inherited pass has returned on a block without
    [pressure_dx], [calculate_scaling_factors] raises an
    [AttributeError], whether [dP_dx] exists or not: for [pressure_dx]
    when the block has an area, for the area otherwise.  A block
    without [pressure_change_total] is no obstacle: that pass is
    skipped. *)
Theorem gradient_pass_unguarded :
  (forall s s0,
      base_calculate_scaling_factors s = (s0, Ok tt) ->
      pressure_dx s0 = None ->
      exists s',
        calculate_scaling_factors base_calculate_scaling_factors s =
        (s', Raise (AttributeError
                      match area s0 with
                      | Some _ => "pressure_dx"
                      | None => "area"
                      end))) /\
  (forall s s0 a vs,
      base_calculate_scaling_factors s = (s0, Ok tt) ->
      area s0 = Some a ->
      pressure_change_total s0 = None ->
      pressure_dx s0 = Some vs ->
      exists s',
        calculate_scaling_factors base_calculate_scaling_factors s =
        (s', Ok tt)).
Proof.
  split.
  - intros s s0 Hb Hdx. destruct (area s0) as [a |] eqn:Ha.
    + eexists. rewrite (calculate_scaling_factors_with_area _ _ _ Hb Ha).
      now rewrite Hdx.
    + eexists. apply (calculate_scaling_factors_without_area _ _ Hb Ha).
  - intros s s0 a vs Hb Ha _ Hdx. eexists.
    rewrite (calculate_scaling_factors_with_area _ _ _ Hb Ha).
    now rewrite Hdx.
Qed.

End Scaling.

(** ** The pressure-gradient alias and the enthalpy balance *)

(** C6. Whatever [pressure_change_type] is, on a block with [deltaP]
    [_add_pressure_change] returns with [dP_dx] bound to the variable
    [deltaP] is bound to; the variables and the constraints of the block
    are the ones it had; a value set through one name is the value read
    through the other. *)
Theorem pressure_change_alias {P : Type} (pressure_change_type : P) s r :
  deltaP s = Some r ->
  exists s',
    _add_pressure_change pressure_change_type s = (s', Ok tt) /\
    dP_dx s' = Some r /\
    deltaP s' = Some r /\
    var_value s' = var_value s /\
    number_variables s' = number_variables s /\
    constraints s' = constraints s /\
    scaling_factor s' = scaling_factor s /\
    (forall i x, (i < length r)%nat ->
       exists s'',
         set_member_value "dP_dx" dP_dx i x s' = (s'', Ok tt) /\
         member_value "deltaP" deltaP i s'' = (s'', Ok (Some x))) /\
    (forall i x, (i < length r)%nat ->
       exists s'',
         set_member_value "deltaP" deltaP i x s' = (s'', Ok tt) /\
         member_value "dP_dx" dP_dx i s'' = (s'', Ok (Some x))).
Proof.
  intros Hd. exists (set_dP_dx r s).
  split.
  { unfold _add_pressure_change.
    now rewrite (bind_ok _ _ _ _ _ (getattr_some _ _ _ _ Hd)). }
  repeat (split; [reflexivity || exact Hd |]).
  split; intros i x Hi;
    destruct (lookup_lt_is_Some_2 r i Hi) as [v Hv];
    exists (set_var_value (<[v := x]> (var_value (set_dP_dx r s)))
              (set_dP_dx r s));
    unfold set_member_value, member_value, bind, getattr, modify, gets;
    cbn [dP_dx deltaP set_dP_dx set_var_value var_value];
    rewrite ?Hd, Hv; cbn [dP_dx deltaP set_dP_dx set_var_value var_value];
    rewrite ?Hd, ?Hv; (split; [reflexivity |]);
    now rewrite lookup_insert_eq.
Qed.

(** C8. [add_total_enthalpy_balances] returns [None] and the block is the
    block it was given: its constraints, their number and its degrees of
    freedom are unchanged. *)
Theorem add_total_enthalpy_balances_no_op {Kwargs : Type} (kwrags : Kwargs) s :
  let s' := fst (add_total_enthalpy_balances kwrags s) in
  add_total_enthalpy_balances kwrags s = (s, Ok tt) /\
  s' = s /\
  constraints s' = constraints s /\
  number_constraints s' = number_constraints s /\
  var_value s' = var_value s /\
  degrees_of_freedom s' = degrees_of_freedom s.
Proof. repeat split. Qed.

(** ** Configuration *)

Lemma get_app name c n cv :
  get name (c ++ [(n, cv)])%list =
  match get name c with
  | Some x => Some x
  | None => if String.eqb n name then Some cv else None
  end.
Proof.
  induction c as [| [m x] c IH]; simpl; [reflexivity |].
  now destruct (String.eqb m name).
Qed.

Lemma declare_inv name cv c t :
  declare name cv c = Ok t ->
  exists c0 cv0, c = Ok c0 /\ cv = Ok cv0 /\ get name c0 = None /\
                 t = (c0 ++ [(name, cv0)])%list.
Proof.
  unfold declare. destruct c as [c0 | e]; [| discriminate].
  destruct cv as [cv0 | e]; [| discriminate].
  destruct (get name c0) eqn:E; [discriminate |].
  intros H. injection H as <-. now exists c0, cv0.
Qed.

Lemma cast_no_domain v : cast None v = Ok v.
Proof. now destruct v. Qed.

(** ** The properties on the small channel *)

Lemma apply_transformation_domain_witness :
  exists s',
    apply_transformation uniform_transformation 4%positive channel
      = (s', Ok tt) /\
    length_domain s' = Some [0 # 4; 1 # 4; 2 # 4; 3 # 4; 4 # 4] /\
    difference_elements s' = Some [1 # 4; 2 # 4; 3 # 4; 4 # 4] /\
    nfe s' = Some 4%Z.
Proof.
  destruct (apply_transformation_domain uniform_transformation 4%positive
              channel (set_length_domain (uniform_grid 4) channel)
              [0; 1] (uniform_grid 4))
    as (s' & H & Hd & _ & _ & Hde & Hn & _); try reflexivity.
  exists s'. repeat split; assumption.
Defined.

Lemma first_element_is_minimum_witness :
  (exists m,
      min (uniform_grid 4) = Ok m /\
      first_element
        (fst (apply_transformation uniform_transformation 4%positive channel))
      = Some m) /\
  (exists m,
      min [0; 1] = Ok m /\
      first_element
        (fst (add_state_blocks (@no_op2 FlowDirection (option bool))
                (@no_op (option bool)) backward None channel))
      = Some m).
Proof.
  split.
  - apply (proj1 (first_element_is_minimum uniform_transformation
                    no_op2 no_op) 4%positive channel); reflexivity.
  - apply (proj2 (first_element_is_minimum uniform_transformation
                    no_op2 no_op) backward None channel);
      try reflexivity.
    intros s2 s3 H. injection H as <-. now split.
Defined.

Lemma isothermal_constraints_witness :
  exists s' c,
    add_isothermal_conditions (@no_op unit) tt
      (set_length_domain (uniform_grid 2) channel) = (s', Ok tt) /\
    lookup_component "eq_feed_isothermal" (constraints s') = Some c /\
    len c = 4%Z.
Proof.
  destruct (isothermal_constraints (@no_op unit) tt
              (set_length_domain (uniform_grid 2) channel)
              (set_length_domain (uniform_grid 2) channel)
              (uniform_grid 2) (0 # 2))
    as (s' & c & H & _ & Hl & _ & _ & Hn); try reflexivity.
  exists s', c. repeat split; assumption.
Defined.

Lemma scaling_twice_witness :
  exists s2,
    calculate_scaling_factors default_scaling
      (fst (calculate_scaling_factors default_scaling channel)) = (s2, Ok tt) /\
    scaling_factor s2 !! 0%nat = Some 100 /\
    scaling_factor s2 !! 1%nat = Some (1 # 1000) /\
    scaling_factor s2 !! 3%nat = Some 100000.
Proof.
  pose (s1 := fst (calculate_scaling_factors default_scaling channel)).
  destruct (scaling_twice default_scaling channel s1 s1)
    as (s2 & H & Ha & Ht & Hg); try reflexivity.
  { intros v q Hv. exact Hv. }
  exists s2. split; [exact H |]. split; [| split].
  - apply (Ha 0%nat); reflexivity.
  - apply (Ht [1%nat; 2%nat] 1%nat); [reflexivity | now left | reflexivity].
  - apply (Hg [3%nat; 4%nat; 5%nat] 3%nat); [reflexivity | now left].
Defined.

Lemma gradient_scaling_witness :
  exists s',
    calculate_scaling_factors default_scaling channel = (s', Ok tt) /\
    scaling_factor s' !! 4%nat = Some 100000.
Proof.
  destruct (gradient_scaling default_scaling channel
              (fst (default_scaling channel)) 0%nat [3%nat; 4%nat; 5%nat])
    as (s' & H & Hg & _); try reflexivity.
  exists s'. split; [exact H |].
  apply (Hg 4%nat); [right; now left | reflexivity].
Defined.

Lemma area_scaling_witness :
  exists s' r,
    calculate_scaling_factors default_scaling channel = (s', r) /\
    scaling_factor s' !! 0%nat = Some 100.
Proof.
  destruct (area_scaling default_scaling channel
              (fst (default_scaling channel)) 0%nat)
    as (s' & r & H & Ha); try reflexivity.
  - intros [E | [E | []]]; discriminate E.
  - intros [E | [E | [E | []]]]; discriminate E.
  - exists s', r. split; [exact H | exact Ha].
Defined.

Lemma gradient_pass_unguarded_witness :
  (exists s',
      calculate_scaling_factors default_scaling
        (channel_with (Some [1%nat; 2%nat]) None (Some [6%nat; 7%nat; 8%nat]))
      = (s', Raise (AttributeError "pressure_dx"))) /\
  (exists s',
      calculate_scaling_factors default_scaling
        (channel_with None (Some [3%nat; 4%nat; 5%nat]) None) = (s', Ok tt)).
Proof.
  split.
  - apply (proj1 (gradient_pass_unguarded default_scaling)
             (channel_with (Some [1%nat; 2%nat]) None
                (Some [6%nat; 7%nat; 8%nat]))
             (fst (default_scaling
                     (channel_with (Some [1%nat; 2%nat]) None
                        (Some [6%nat; 7%nat; 8%nat])))));
      reflexivity.
  - apply (proj2 (gradient_pass_unguarded default_scaling)
             (channel_with None (Some [3%nat; 4%nat; 5%nat]) None)
             (fst (default_scaling
                     (channel_with None (Some [3%nat; 4%nat; 5%nat]) None)))
             0%nat [3%nat; 4%nat; 5%nat]);
      reflexivity.
Defined.

Lemma pressure_change_alias_witness :
  exists s',
    _add_pressure_change tt channel = (s', Ok tt) /\
    dP_dx s' = Some [6%nat; 7%nat; 8%nat] /\
    deltaP s' = Some [6%nat; 7%nat; 8%nat].
Proof.
  destruct (pressure_change_alias tt channel [6%nat; 7%nat; 8%nat] eq_refl)
    as (s' & H & Ha & Hd & _).
  exists s'. repeat split; assumption.
Defined.

(** ** Evaluations *)

(** A factor the user gave the area is kept, a factor a member of
    [pressure_dx] had is overwritten, and with the alias the gradient
    factor is 1e-5. *)
Example user_area_factor_kept :
  let s := set_scaling {[ 0%nat := 5; 3%nat := 7 ]}
             (channel_with None (Some [3%nat]) (Some [6%nat])) in
  let s' := fst (calculate_scaling_factors default_scaling s) in
  scaling_factor s' !! 0%nat = Some 5 /\
  scaling_factor s' !! 3%nat = Some (1 # 100000).
Proof. split; reflexivity. Qed.

(** A factor of exactly 1 that the user gave the area is replaced like the
    default. *)
Example user_area_factor_one_replaced :
  let s := set_scaling {[ 0%nat := 2 # 2 ]} channel in
  scaling_factor (fst (calculate_scaling_factors default_scaling s)) !! 0%nat
  = Some 100.
Proof. reflexivity. Qed.

(** Without [pressure_dx] the area and [pressure_change_total] passes have
    run when the exception is raised. *)
Example passes_before_exception :
  let s := channel_with (Some [1%nat; 2%nat]) None None in
  let r := calculate_scaling_factors default_scaling s in
  snd r = Raise (AttributeError "pressure_dx") /\
  scaling_factor (fst r) !! 0%nat = Some 100 /\
  scaling_factor (fst r) !! 2%nat = Some (1 # 10000).
Proof. repeat split; reflexivity. Qed.

(** On an empty domain [first] raises and the grid attributes stay
    unset. *)
Example empty_domain :
  let r := apply_transformation (@no_op unit) tt
             (set_length_domain [] channel) in
  snd r = Raise IndexError /\ first_element (fst r) = None.
Proof. split; reflexivity. Qed.

(** Declaring the isothermal constraint a second time deletes the first
    and raises. *)
Example isothermal_conditions_twice :
  let s1 := fst (add_isothermal_conditions (@no_op unit) tt channel) in
  let r := add_isothermal_conditions (@no_op unit) tt s1 in
  len (match lookup_component "eq_feed_isothermal" (constraints s1) with
       | Some c => c
       | None => []
       end) = 2%Z /\
  snd r = Raise RuntimeError /\
  lookup_component "eq_feed_isothermal" (constraints (fst r)) = None.
Proof. repeat split; reflexivity. Qed.

(** A key may be written with spaces. *)
Example key_with_spaces :
  value <$>
    match set_value [("finite elements", PyInt 3)]
            (declared_options ascii_numeral In_DistributedVars_member
               (PyDistributedVars uniform)) with
    | Ok c => get "finite_elements" c
    | Raise _ => None
    end = Some (PyInt 3).
Proof. reflexivity. Qed.

(** [int] on the values a configuration may be given. *)
Example int_values :
  int ascii_numeral (PyInt 0) = Some 0%Z /\
  int ascii_numeral (PyBool true) = Some 1%Z /\
  int ascii_numeral (PyFloat (-7 # 2)) = Some (-3)%Z /\
  int ascii_numeral PyUseDefault = None.
Proof. repeat split; reflexivity. Qed.

(** * Further properties *)

(** ** The difference elements of an arbitrary domain *)

Lemma Qeq_bool_sym x y : Qeq_bool x y = Qeq_bool y x.
Proof.
  destruct (Qeq_bool x y) eqn:E1, (Qeq_bool y x) eqn:E2; try reflexivity.
  - apply Qeq_bool_iff in E1. symmetry in E1. apply Qeq_bool_iff in E1.
    congruence.
  - apply Qeq_bool_iff in E2. symmetry in E2. apply Qeq_bool_iff in E2.
    congruence.
Qed.

Lemma Qeq_bool_trans x y z :
  Qeq_bool x y = true -> Qeq_bool y z = true -> Qeq_bool x z = true.
Proof.
  rewrite !Qeq_bool_iff. intros H1 H2. now rewrite H1.
Qed.

Lemma Qeq_bool_congr x y z :
  Qeq_bool x y = true -> Qeq_bool x z = Qeq_bool y z.
Proof.
  intros H. destruct (Qeq_bool y z) eqn:E.
  - now apply Qeq_bool_trans with y.
  - destruct (Qeq_bool x z) eqn:E'; [| reflexivity].
    rewrite Qeq_bool_sym in H.
    now rewrite (Qeq_bool_trans _ _ _ H E') in E.
Qed.

Lemma mem_filter x x0 l :
  mem x (List.filter (fun y => negb (Qeq_bool y x0)) l) =
  mem x l && negb (Qeq_bool x x0).
Proof.
  induction l as [| y l IH]; [reflexivity |].
  simpl. destruct (Qeq_bool y x0) eqn:Ey; simpl; rewrite IH.
  - destruct (Qeq_bool x y) eqn:Ex; [| reflexivity]. simpl.
    rewrite (Qeq_bool_congr _ _ _ Ex), Ey. simpl.
    now rewrite andb_false_r.
  - destruct (Qeq_bool x y) eqn:Ex; [| reflexivity]. simpl.
    now rewrite (Qeq_bool_congr _ _ _ Ex), Ey.
Qed.

Lemma mem_Set_ordered x l : mem x (Set_ordered l) = mem x l.
Proof.
  induction l as [| y l IH]; [reflexivity |].
  simpl. rewrite mem_filter, IH.
  destruct (Qeq_bool x y); [reflexivity |]. simpl. apply andb_true_r.
Qed.

Lemma distinct_filter (p : Q -> bool) l :
  distinct l = true -> distinct (List.filter p l) = true.
Proof.
  induction l as [| y l IH]; [reflexivity |].
  simpl. intros H. apply andb_prop in H as [Hy Hl].
  destruct (p y); [| now apply IH].
  simpl. rewrite (IH Hl), andb_true_r.
  apply negb_true_iff. apply negb_true_iff in Hy.
  destruct (mem y (List.filter p l)) eqn:E; [| reflexivity].
  apply mem_In in E as [z [Hz Ez]]. apply filter_In in Hz as [Hz _].
  assert (mem y l = true) by (apply mem_In; now exists z). congruence.
Qed.

Lemma distinct_Set_ordered l : distinct (Set_ordered l) = true.
Proof.
  induction l as [| y l IH]; [reflexivity |].
  simpl. rewrite (distinct_filter _ _ IH), andb_true_r.
  rewrite mem_filter, Qeq_bool_refl. simpl. now rewrite andb_false_r.
Qed.

Lemma sublist_List_filter (p : Q -> bool) l : sublist (List.filter p l) l.
Proof.
  induction l as [| y l IH]; simpl; [constructor |].
  destruct (p y); now constructor.
Qed.

Lemma sublist_Set_ordered l : sublist (Set_ordered l) l.
Proof.
  induction l as [| y l IH]; simpl; [constructor |].
  constructor. etransitivity; [apply sublist_List_filter | exact IH].
Qed.

Lemma sublist_len (l1 l2 : list Q) : sublist l1 l2 -> (len l1 <= len l2)%Z.
Proof. intros H. apply sublist_length in H. unfold len. lia. Qed.

Section GridFurther.

Context {Args : Type}.
Variable base_apply_transformation : Args -> M unit.
Variable base_add_state_blocks : FlowDirection -> option bool -> M unit.
Variable _add_interface_stateblock : option bool -> M unit.

(** X1. Whatever non-empty domain the inherited transformation leaves,
    sorted or not, [apply_transformation] returns with [first_element] its
    first point and [nfe] the size of [difference_elements], which keeps
    the order of the domain, holds exactly the points of the domain that
    differ from the first, holds none of them twice and has at most
    [|length_domain| - 1] members. *)
Theorem difference_elements_any_domain args s s1 x0 l :
  base_apply_transformation args s = (s1, Ok tt) ->
  length_domain s1 = Some (x0 :: l) ->
  exists s' de,
    apply_transformation base_apply_transformation args s = (s', Ok tt) /\
    first_element s' = Some x0 /\
    difference_elements s' = Some de /\
    nfe s' = Some (len de) /\
    sublist de l /\
    (forall x,
        mem x de = true <->
        mem x (x0 :: l) = true /\ Qeq_bool x x0 = false) /\
    mem x0 de = false /\
    distinct de = true /\
    (len de <= len (x0 :: l) - 1)%Z.
Proof.
  intros Hb Hd.
  pose (de := Set_ordered
                (List.filter (fun y => negb (Qeq_bool y x0)) (x0 :: l))).
  exists (set_nfe (len de)
            (set_difference_elements de (set_first_element x0 s1))), de.
  split; [apply (apply_transformation_after_base _ _ _ _ _ _ Hb Hd) |].
  assert (Hmem : forall x,
             mem x de = mem x (x0 :: l) && negb (Qeq_bool x x0)).
  { intros x. unfold de. now rewrite mem_Set_ordered, mem_filter. }
  assert (Hsub : sublist de l).
  { unfold de. simpl. rewrite Qeq_bool_refl. simpl.
    etransitivity; [apply sublist_Set_ordered | apply sublist_List_filter]. }
  split; [reflexivity |]. split; [reflexivity |]. split; [reflexivity |].
  split; [exact Hsub |]. split; [| split; [| split]].
  - intros x. rewrite Hmem. split.
    + intros H. apply andb_prop in H as [H1 H2].
      now apply negb_true_iff in H2.
    + intros [H1 H2]. now rewrite H1, H2.
  - rewrite Hmem, Qeq_bool_refl. apply andb_false_r.
  - apply distinct_Set_ordered.
  - rewrite <- (len_tail x0 l). now apply sublist_len.
Qed.

Lemma apply_transformation_no_domain args s s1 :
  base_apply_transformation args s = (s1, Ok tt) ->
  length_domain s1 = None ->
  apply_transformation base_apply_transformation args s =
  (s1, Raise (AttributeError "length_domain")).
Proof.
  intros Hb Hd. unfold apply_transformation. rewrite (bind_ok _ _ _ _ _ Hb).
  now rewrite (bind_raise _ _ _ _ _ (getattr_none _ _ _ Hd)).
Qed.

Lemma apply_transformation_empty_domain args s s1 :
  base_apply_transformation args s = (s1, Ok tt) ->
  length_domain s1 = Some [] ->
  apply_transformation base_apply_transformation args s =
  (s1, Raise IndexError).
Proof.
  intros Hb Hd. unfold apply_transformation. rewrite (bind_ok _ _ _ _ _ Hb).
  now rewrite (bind_ok _ _ _ _ _ (getattr_some _ _ _ _ Hd)).
Qed.

(** X2. When the inherited transformation leaves the block without a
    length domain, or with an empty one, [apply_transformation] raises
    [AttributeError], respectively [IndexError], and the block is as the
    inherited transformation left it: no grid attribute has been set. *)
Theorem apply_transformation_without_domain :
  (forall args s s1,
      base_apply_transformation args s = (s1, Ok tt) ->
      length_domain s1 = None ->
      apply_transformation base_apply_transformation args s =
      (s1, Raise (AttributeError "length_domain"))) /\
  (forall args s s1,
      base_apply_transformation args s = (s1, Ok tt) ->
      length_domain s1 = Some [] ->
      apply_transformation base_apply_transformation args s =
      (s1, Raise IndexError)).
Proof.
  split; intros args s s1 Hb Hd.
  - now apply apply_transformation_no_domain.
  - now apply apply_transformation_empty_domain.
Qed.

(** X3. However [apply_transformation] ends, the block differs from the
    one the inherited transformation left in [first_element],
    [difference_elements] and [nfe] at most: the domain, the variables,
    the constraints, the scaling factors and the degrees of freedom are
    the same. *)
Theorem apply_transformation_frame args s :
  let s1 := fst (base_apply_transformation args s) in
  let s' := fst (apply_transformation base_apply_transformation args s) in
  time s' = time s1 /\
  length_domain s' = length_domain s1 /\
  area s' = area s1 /\
  pressure_change_total s' = pressure_change_total s1 /\
  pressure_dx s' = pressure_dx s1 /\
  deltaP s' = deltaP s1 /\
  dP_dx s' = dP_dx s1 /\
  var_value s' = var_value s1 /\
  constraints s' = constraints s1 /\
  scaling_factor s' = scaling_factor s1 /\
  degrees_of_freedom s' = degrees_of_freedom s1.
Proof.
  destruct (base_apply_transformation args s) as [s1 [[] | e]] eqn:Hb;
    cbn [fst].
  - destruct (length_domain s1) as [[| x l] |] eqn:Hd.
    + rewrite (apply_transformation_empty_domain _ _ _ Hb Hd).
      cbn [fst]. repeat split; auto.
    + rewrite (apply_transformation_after_base _ _ _ _ _ _ Hb Hd).
      cbn [fst]. repeat split; auto.
    + rewrite (apply_transformation_no_domain _ _ _ Hb Hd).
      cbn [fst]. repeat split; auto.
  - unfold apply_transformation. rewrite (bind_raise _ _ _ _ _ Hb).
    repeat split.
Qed.

End GridFurther.

(** ** The outcomes of [add_state_blocks] *)

Section StateBlocksFurther.

Variable base_add_state_blocks : FlowDirection -> option bool -> M unit.
Variable _add_interface_stateblock : option bool -> M unit.

(** X4. Once the inherited [add_state_blocks] has returned,
    [add_state_blocks] raises [AttributeError] on a block without length
    domain and [IndexError] on an empty one, the block being as the
    inherited method left it and the interface state block not built;
    otherwise it ends as the construction of the interface state block
    ends on the block whose [first_element] is already the first point of
    the domain. *)
Theorem add_state_blocks_outcomes information_flow has_phase_equilibrium
    s s1 :
  base_add_state_blocks information_flow has_phase_equilibrium s
    = (s1, Ok tt) ->
  let r := add_state_blocks base_add_state_blocks _add_interface_stateblock
             information_flow has_phase_equilibrium s in
  (length_domain s1 = None ->
   r = (s1, Raise (AttributeError "length_domain"))) /\
  (length_domain s1 = Some [] -> r = (s1, Raise IndexError)) /\
  (forall x l,
      length_domain s1 = Some (x :: l) ->
      r = _add_interface_stateblock has_phase_equilibrium
            (set_first_element x s1)).
Proof.
  intros Hb r. subst r. unfold add_state_blocks.
  rewrite (bind_ok _ _ _ _ _ Hb). repeat split.
  - intros Hd. now rewrite (bind_raise _ _ _ _ _ (getattr_none _ _ _ Hd)).
  - intros Hd. now rewrite (bind_ok _ _ _ _ _ (getattr_some _ _ _ _ Hd)).
  - intros x l Hd.
    rewrite (bind_ok _ _ _ _ _ (getattr_some _ _ _ _ Hd)).
    unfold bind, lift, first, modify.
    now destruct (_add_interface_stateblock has_phase_equilibrium
                    (set_first_element x s1)) as [s3 [[] | e]].
Qed.

End StateBlocksFurther.

(** ** What the isothermal constraint enforces *)

Lemma increasing_first x0 l x :
  increasing (x0 :: l) = true ->
  In x (x0 :: l) -> Qeq_bool x x0 = true -> x = x0.
Proof.
  simpl. intros H [<- | Hx] E; [reflexivity |].
  apply andb_prop in H as [H _].
  rewrite forallb_forall in H. specialize (H x Hx).
  apply Qlt_bool_neq in H. congruence.
Qed.

Lemma number_constraints_app s cs name c :
  constraints s = (cs ++ [(name, c)])%list ->
  number_constraints s =
  (fold_right (fun nc acc => (len (snd nc) + acc)%Z) 0%Z cs + len c)%Z.
Proof.
  unfold number_constraints. intros ->. rewrite fold_right_app. simpl.
  generalize (len c). intros n.
  induction cs as [| [m x] cs IH]; simpl; [lia |]. rewrite IH. lia.
Qed.

Section IsothermalFurther.

Context {Kwargs : Type}.
Variable base_add_isothermal_conditions : Kwargs -> M unit.

(** The block [add_isothermal_conditions] returns. *)
Lemma add_isothermal_conditions_after_base kwargs s s1 x0 l :
  base_add_isothermal_conditions kwargs s = (s1, Ok tt) ->
  length_domain s1 = Some (x0 :: l) ->
  lookup_component "eq_feed_isothermal" (constraints s1) = None ->
  add_isothermal_conditions base_add_isothermal_conditions kwargs s =
  (set_constraints
     (constraints s1 ++
      [("eq_feed_isothermal",
        isothermal_entries x0 (list_prod (time s1) (x0 :: l)))]) s1,
   Ok tt).
Proof.
  intros Hb Hd Hfree. unfold add_isothermal_conditions.
  rewrite (bind_ok _ _ _ _ _ Hb).
  unfold bind at 1, gets.
  rewrite (bind_ok _ _ _ _ _ (getattr_some _ _ _ _ Hd)).
  rewrite (bind_ok _ _ _ _ _ (Constraint_eq_feed_isothermal _ _ _ _ Hd)).
  unfold add_component. now rewrite Hfree.
Qed.

(** X5. When the inherited method has returned on a strictly increasing
    domain and the name is free, an assignment of temperatures satisfies every entry of [eq_feed_isothermal] exactly when, at every
    time, the temperature at every point of the domain equals the one at
    the first point; the temperatures at any two points of the domain are
    then equal. *)
Theorem isothermal_uniform_temperature kwargs s s1 L x0 :
  base_add_isothermal_conditions kwargs s = (s1, Ok tt) ->
  length_domain s1 = Some L ->
  first L = Ok x0 ->
  increasing L = true ->
  lookup_component "eq_feed_isothermal" (constraints s1) = None ->
  exists s' c,
    add_isothermal_conditions base_add_isothermal_conditions kwargs s
      = (s', Ok tt) /\
    lookup_component "eq_feed_isothermal" (constraints s') = Some c /\
    forall T : Q -> Q -> Q,
      (Forall (fun e => holds T (snd e)) c <->
       forall t x, In t (time s1) -> In x L -> T t x == T t x0) /\
      (Forall (fun e => holds T (snd e)) c ->
       forall t x y, In t (time s1) -> In x L -> In y L -> T t x == T t y).
Proof.
  intros Hb Hd Hf Hinc Hfree.
  destruct L as [| x1 l]; [discriminate Hf |]. injection Hf as ->.
  eexists _, _. split;
    [apply (add_isothermal_conditions_after_base _ _ _ _ _ Hb Hd Hfree) |].
  split; [now apply lookup_component_app |].
  intros T.
  assert (Hiff :
    Forall (fun e => holds T (snd e))
      (isothermal_entries x0 (list_prod (time s1) (x0 :: l))) <->
    forall t x, In t (time s1) -> In x (x0 :: l) -> T t x == T t x0).
  { rewrite List.Forall_forall. split.
    - intros H t x Ht Hx. destruct (Qeq_bool x x0) eqn:E.
      + now rewrite (increasing_first _ _ _ Hinc Hx E).
      + specialize (H ((t, x),
                       Equality (temperature t x0) (temperature t x))).
        simpl in H. symmetry. apply H.
        apply isothermal_entries_In. repeat split; auto.
        now apply in_prod.
    - intros H [[t x] r] Hr.
      apply isothermal_entries_In in Hr as (Hi & _ & ->).
      apply in_prod_iff in Hi as [Ht Hx]. simpl. symmetry. now apply H. }
  split; [exact Hiff |].
  intros H t x y Ht Hx Hy. pose proof (proj1 Hiff H) as H'.
  rewrite (H' t x Ht Hx), (H' t y Ht Hy). reflexivity.
Qed.

(** X6. When the inherited method has returned on a strictly increasing
    domain and the name is free, [add_isothermal_conditions] adds
    [|time| * (|length_domain| - 1)] constraints to those the inherited
    method left and no variable, so the degrees of freedom go down by that
    number; the grid attributes and the scaling factors are untouched. *)
Theorem isothermal_degrees_of_freedom kwargs s s1 L x0 :
  base_add_isothermal_conditions kwargs s = (s1, Ok tt) ->
  length_domain s1 = Some L ->
  first L = Ok x0 ->
  increasing L = true ->
  lookup_component "eq_feed_isothermal" (constraints s1) = None ->
  exists s',
    add_isothermal_conditions base_add_isothermal_conditions kwargs s
      = (s', Ok tt) /\
    number_constraints s' =
      (number_constraints s1 + len (time s1) * (len L - 1))%Z /\
    number_variables s' = number_variables s1 /\
    degrees_of_freedom s' =
      (degrees_of_freedom s1 - len (time s1) * (len L - 1))%Z /\
    length_domain s' = Some L /\
    first_element s' = first_element s1 /\
    difference_elements s' = difference_elements s1 /\
    nfe s' = nfe s1 /\
    scaling_factor s' = scaling_factor s1.
Proof.
  intros Hb Hd Hf Hinc Hfree.
  destruct L as [| x1 l]; [discriminate Hf |]. injection Hf as ->.
  eexists. split;
    [apply (add_isothermal_conditions_after_base _ _ _ _ _ Hb Hd Hfree) |].
  assert (Hn :
    number_constraints
      (set_constraints
         (constraints s1 ++
          [("eq_feed_isothermal",
            isothermal_entries x0 (list_prod (time s1) (x0 :: l)))]) s1) =
    (number_constraints s1 + len (time s1) * (len (x0 :: l) - 1))%Z).
  { rewrite (number_constraints_app _ (constraints s1) "eq_feed_isothermal"
               (isothermal_entries x0 (list_prod (time s1) (x0 :: l))))
      by reflexivity.
    fold (number_constraints s1). f_equal.
    unfold len. rewrite (isothermal_entries_length _ _ _ Hinc).
    simpl length. lia. }
  split; [exact Hn |]. split; [reflexivity |].
  split; [unfold degrees_of_freedom; rewrite Hn;
          unfold number_variables; cbn [var_value set_constraints]; lia |].
  repeat split; auto.
Qed.

End IsothermalFurther.

(** ** The alias and the scaling passes together *)

Lemma total_pass_In_None vs r v :
  In v vs -> r !! v = None -> total_pass vs r !! v = Some (1 # 10000).
Proof.
  unfold total_pass. revert r.
  induction vs as [| w vs IH]; intros r Hin Hv; simpl; [destruct Hin |].
  destruct (decide (w = v)) as [-> | Hne].
  - rewrite Hv. apply (total_pass_Some vs). apply lookup_insert_eq.
  - destruct Hin as [-> | Hin]; [congruence |].
    apply IH; [assumption |].
    destruct (r !! w); [assumption |]. now rewrite lookup_insert_ne.
Qed.

(** X8. Without [deltaP], [_add_pressure_change] raises [AttributeError]
    and leaves the block as it was; once it has returned, calling it
    again, with any argument, returns the same block. *)
Theorem pressure_change_idempotent {P P' : Type} (p : P) (p' : P') s :
  (deltaP s = None ->
   _add_pressure_change p s = (s, Raise (AttributeError "deltaP"))) /\
  (forall s',
      _add_pressure_change p s = (s', Ok tt) ->
      _add_pressure_change p' s' = (s', Ok tt)).
Proof.
  unfold _add_pressure_change. split.
  - intros Hd. now rewrite (bind_raise _ _ _ _ _ (getattr_none _ _ _ Hd)).
  - intros s' H. apply bind_inv_ok in H as (s1 & r & Hg & Hm).
    unfold getattr in Hg. destruct (deltaP s) as [r' |] eqn:Hd;
      [| discriminate Hg].
    injection Hg as <- <-. unfold modify in Hm. injection Hm as <-.
    unfold bind, getattr, modify. cbn [deltaP set_dP_dx]. now rewrite Hd.
Qed.

Section ScalingFurther.

Variable base_calculate_scaling_factors : M unit.

(** X9. On a block on which [_add_pressure_change] has run, with whatever
    argument, [calculate_scaling_factors] gives every member of
    [pressure_dx] the factor 1e-5, provided the inherited pass returns and
    keeps the alias. *)
Theorem alias_then_scaling {P : Type} (p : P) s sa s0 a vs :
  _add_pressure_change p s = (sa, Ok tt) ->
  base_calculate_scaling_factors sa = (s0, Ok tt) ->
  dP_dx s0 = dP_dx sa ->
  area s0 = Some a ->
  pressure_dx s0 = Some vs ->
  exists s',
    calculate_scaling_factors base_calculate_scaling_factors sa
      = (s', Ok tt) /\
    forall v, In v vs -> scaling_factor s' !! v = Some (1 # 100000).
Proof.
  intros Hp Hb Hal Ha Hdx.
  assert (Hsome : exists r, dP_dx sa = Some r).
  { unfold _add_pressure_change in Hp.
    apply bind_inv_ok in Hp as (s1 & r & _ & Hm).
    unfold modify in Hm. injection Hm as <-. now exists r. }
  destruct Hsome as [r Hr]. rewrite Hr in Hal.
  exists (set_scaling (scaled a s0) s0). split.
  - rewrite (calculate_scaling_factors_with_area _ _ _ _ Hb Ha).
    now rewrite Hdx.
  - intros v Hv. cbn [scaling_factor set_scaling].
    rewrite scaled_gradient by (now rewrite Hdx).
    unfold gradient_factor. now rewrite Hal.
Qed.

(** The block [calculate_scaling_factors] leaves once the inherited pass
    has returned. *)
Lemma calculate_scaling_factors_block s s0 :
  base_calculate_scaling_factors s = (s0, Ok tt) ->
  fst (calculate_scaling_factors base_calculate_scaling_factors s) =
  match area s0 with
  | Some a => set_scaling (scaled a s0) s0
  | None => s0
  end.
Proof.
  intros Hb. destruct (area s0) as [a |] eqn:Ha.
  - now rewrite (calculate_scaling_factors_with_area _ _ _ _ Hb Ha).
  - now rewrite (calculate_scaling_factors_without_area _ _ _ Hb Ha).
Qed.

(** X10. However [calculate_scaling_factors] ends after the inherited
    pass, it has changed nothing but scaling factors, and none of a
    variable that is neither the area nor a member of
    [pressure_change_total] or [pressure_dx]: the members of [deltaP] and
    [dP_dx], for one, keep the factors they had. *)
Theorem scaling_frame s s0 :
  base_calculate_scaling_factors s = (s0, Ok tt) ->
  let s' := fst (calculate_scaling_factors base_calculate_scaling_factors s) in
  (forall v,
      area s0 <> Some v ->
      ~ In v (members (pressure_change_total s0)) ->
      ~ In v (members (pressure_dx s0)) ->
      scaling_factor s' !! v = scaling_factor s0 !! v) /\
  set_scaling (scaling_factor s0) s' = s0 /\
  degrees_of_freedom s' = degrees_of_freedom s0.
Proof.
  intros Hb s'. subst s'. rewrite (calculate_scaling_factors_block _ _ Hb).
  destruct (area s0) as [a |] eqn:Ha.
  - split; [| split; [exact (set_scaling_id s0) | reflexivity]].
    intros v Hv Ht Hg. cbn [scaling_factor set_scaling]. unfold scaled.
    rewrite gradient_pass_not_In, total_pass_not_In by assumption.
    apply area_pass_ne. congruence.
  - split; [reflexivity |]. split; [apply set_scaling_id | reflexivity].
Qed.

(** X11. However [calculate_scaling_factors] ends after the inherited
    pass on a block with an area, a member of [pressure_change_total]
    that is neither the area nor a member of [pressure_dx] has the factor
    it had if it had one, and 1e-4 if it had none. *)
Theorem total_scaling s s0 a ts v :
  base_calculate_scaling_factors s = (s0, Ok tt) ->
  area s0 = Some a ->
  pressure_change_total s0 = Some ts ->
  In v ts ->
  v <> a ->
  ~ In v (members (pressure_dx s0)) ->
  scaling_factor
    (fst (calculate_scaling_factors base_calculate_scaling_factors s)) !! v =
  match scaling_factor s0 !! v with
  | Some q => Some q
  | None => Some (1 # 10000)
  end.
Proof.
  intros Hb Ha Ht Hv Hne Hg.
  rewrite (calculate_scaling_factors_block _ _ Hb), Ha.
  cbn [scaling_factor set_scaling]. unfold scaled.
  rewrite gradient_pass_not_In by assumption. rewrite Ht. cbn [members default].
  destruct (scaling_factor s0 !! v) as [q |] eqn:E.
  - apply total_pass_Some. now rewrite area_pass_ne.
  - apply total_pass_In_None; [assumption |]. now rewrite area_pass_ne.
Qed.

(** X12. However [calculate_scaling_factors] ends after the inherited
    pass, the factor it leaves the area with is never equal to 1, even
    when the area is also a member of [pressure_change_total] or
    [pressure_dx]. *)
Theorem area_factor_never_one s s0 a q :
  base_calculate_scaling_factors s = (s0, Ok tt) ->
  area s0 = Some a ->
  scaling_factor
    (fst (calculate_scaling_factors base_calculate_scaling_factors s)) !! a
  = Some q ->
  Qeq_bool q 1 = false.
Proof.
  intros Hb Ha. rewrite (calculate_scaling_factors_block _ _ Hb), Ha.
  cbn [scaling_factor set_scaling]. apply scaled_area_not_one.
Qed.

End ScalingFurther.

(** ** Exceptions of the inherited methods *)

(** X14. An exception raised by the inherited method is raised by
    [add_state_blocks], [add_isothermal_conditions] and
    [calculate_scaling_factors], which leave the block as the inherited
    method left it: no [first_element], no constraint and no scaling
    factor is set after it. *)
Theorem inherited_exception_propagates :
  (forall base_add_state_blocks _add_interface_stateblock
          information_flow has_phase_equilibrium s s1 e,
      base_add_state_blocks information_flow has_phase_equilibrium s
        = (s1, Raise e) ->
      add_state_blocks base_add_state_blocks _add_interface_stateblock
        information_flow has_phase_equilibrium s = (s1, Raise e)) /\
  (forall (Kwargs : Type) (base_add_isothermal_conditions : Kwargs -> M unit)
          kwargs s s1 e,
      base_add_isothermal_conditions kwargs s = (s1, Raise e) ->
      add_isothermal_conditions base_add_isothermal_conditions kwargs s
        = (s1, Raise e)) /\
  (forall base_calculate_scaling_factors s s1 e,
      base_calculate_scaling_factors s = (s1, Raise e) ->
      calculate_scaling_factors base_calculate_scaling_factors s
        = (s1, Raise e)).
Proof.
  repeat split; intros.
  - unfold add_state_blocks. now rewrite (bind_raise _ _ _ _ _ H).
  - unfold add_isothermal_conditions. now rewrite (bind_raise _ _ _ _ _ H).
  - unfold calculate_scaling_factors. now rewrite (bind_raise _ _ _ _ _ H).
Qed.

(** ** The template and the validation of a configuration *)

Lemma get_app_list name c c' :
  get name (c ++ c')%list =
  match get name c with
  | Some x => Some x
  | None => get name c'
  end.
Proof.
  induction c as [| [m x] c IH]; simpl; [reflexivity |].
  now destruct (String.eqb m name).
Qed.

Lemma cast_raises d v e : cast d v = Raise e -> e = ValueError.
Proof.
  unfold cast. destruct v, d as [d |]; try discriminate;
    match goal with
    | |- context [d ?v] => destruct (d v); [discriminate |]
    end; intros H; now injection H as <-.
Qed.

Section ConfigFurther.

Variable int_str : string -> option Z.
Variable Base_CONFIG_Template : ConfigDict.
Variable In_DistributedVars : pyval -> option pyval.

(** X15. The template is built exactly when the validator of
    [area_definition] accepts the default and the base template declares
    none of the five options; it is then the base template followed by
    the five options with their defaults, and an option of the base
    template is found in it unchanged.  Otherwise building it raises
    [ValueError]. *)
Theorem CONFIG_Template_built :
  match CONFIG_Template int_str Base_CONFIG_Template In_DistributedVars with
  | Ok t =>
      exists ad,
        In_DistributedVars (PyDistributedVars uniform) = Some ad /\
        t = (Base_CONFIG_Template
               ++ declared_options int_str In_DistributedVars ad)%list /\
        (forall name,
            In name (map fst (declared_options int_str In_DistributedVars ad)) ->
            get name Base_CONFIG_Template = None) /\
        (forall name cv, get name Base_CONFIG_Template = Some cv ->
                         get name t = Some cv)
  | Raise e =>
      e = ValueError /\
      (In_DistributedVars (PyDistributedVars uniform) = None \/
       exists name,
         In name ["area_definition"; "transformation_method";
                  "transformation_scheme"; "finite_elements";
                  "collocation_points"] /\
         is_Some (get name Base_CONFIG_Template))
  end.
Proof.
  unfold CONFIG_Template, ConfigValue_.
  cbn [cast int_domain int fmap option_fmap option_map].
  destruct (In_DistributedVars (PyDistributedVars uniform)) as [ad |] eqn:Ead;
    [| simpl; split; [reflexivity | now left]].
  destruct (get "area_definition" Base_CONFIG_Template) eqn:E1.
  { simpl. rewrite E1. simpl.
    split; [reflexivity |]. right. exists "area_definition".
    split; [simpl; tauto | now rewrite E1]. }
  destruct (get "transformation_method" Base_CONFIG_Template) eqn:E2.
  { simpl. rewrite E1. simpl. rewrite get_app, E2. simpl.
    split; [reflexivity |]. right. exists "transformation_method".
    split; [simpl; tauto | now rewrite E2]. }
  destruct (get "transformation_scheme" Base_CONFIG_Template) eqn:E3.
  { simpl. rewrite E1. simpl. rewrite get_app, E2. simpl.
    rewrite !get_app, E3. simpl.
    split; [reflexivity |]. right. exists "transformation_scheme".
    split; [simpl; tauto | now rewrite E3]. }
  destruct (get "finite_elements" Base_CONFIG_Template) eqn:E4.
  { simpl. rewrite E1. simpl. rewrite get_app, E2. simpl.
    rewrite !get_app, E3. simpl. rewrite !get_app, E4. simpl.
    split; [reflexivity |]. right. exists "finite_elements".
    split; [simpl; tauto | now rewrite E4]. }
  destruct (get "collocation_points" Base_CONFIG_Template) eqn:E5.
  { simpl. rewrite E1. simpl. rewrite get_app, E2. simpl.
    rewrite !get_app, E3. simpl. rewrite !get_app, E4. simpl.
    rewrite !get_app, E5. simpl.
    split; [reflexivity |]. right. exists "collocation_points".
    split; [simpl; tauto | now rewrite E5]. }
  simpl. rewrite E1. simpl. rewrite get_app, E2. simpl.
  rewrite !get_app, E3. simpl. rewrite !get_app, E4. simpl.
  rewrite !get_app, E5. simpl.
  exists ad. split; [reflexivity |]. split.
  { unfold declared_options. now rewrite <- !app_assoc. }
  split.
  - intros name [<- | [<- | [<- | [<- | [<- | []]]]]]; assumption.
  - intros name cv Hg. rewrite <- !app_assoc. rewrite get_app_list.
    now rewrite Hg.
Qed.

End ConfigFurther.

(** ** Validation against a template *)

Lemma normalise_idempotent key : normalise (normalise key) = normalise key.
Proof.
  induction key as [| c key IH]; [reflexivity |].
  simpl. rewrite IH. destruct (Ascii.eqb c " ") eqn:E; [reflexivity |].
  now rewrite E.
Qed.

Lemma given_normalise name kwargs :
  given name (map (fun kv => (normalise (fst kv), snd kv)) kwargs) =
  given name kwargs.
Proof.
  induction kwargs as [| [k v] kwargs IH]; [reflexivity |].
  simpl. now rewrite IH, normalise_idempotent.
Qed.

Lemma given_None name kwargs :
  ~ In name (map (fun kv => normalise (fst kv)) kwargs) ->
  given name kwargs = None.
Proof.
  induction kwargs as [| [k v] kwargs IH]; [reflexivity |].
  simpl. intros H. rewrite IH by tauto.
  destruct (String.eqb (normalise k) name) eqn:E; [| reflexivity].
  apply String.eqb_eq in E. tauto.
Qed.

Lemma assign_normalise kwargs c :
  assign (map (fun kv => (normalise (fst kv), snd kv)) kwargs) c =
  assign kwargs c.
Proof.
  induction c as [| [n cv] c IH]; [reflexivity |].
  simpl. now rewrite given_normalise, IH.
Qed.

Lemma assign_raises kwargs c e : assign kwargs c = Raise e -> e = ValueError.
Proof.
  induction c as [| [n cv] c IH]; simpl; [discriminate |].
  destruct (given n kwargs) as [v |].
  - destruct (cast (domain cv) v) as [v' | e'] eqn:Ec.
    + destruct (assign kwargs c); [discriminate |].
      intros H. injection H as <-. now apply IH.
    + intros H. injection H as <-. now apply cast_raises in Ec.
  - destruct (assign kwargs c); [discriminate |].
    intros H. injection H as <-. now apply IH.
Qed.

Lemma assign_names kwargs c c' :
  assign kwargs c = Ok c' -> map fst c' = map fst c.
Proof.
  revert c'. induction c as [| [n cv] c IH]; intros c' H; simpl in H.
  - now injection H as <-.
  - destruct (given n kwargs) as [v |].
    + destruct (cast (domain cv) v); [| discriminate].
      destruct (assign kwargs c) as [r |]; [| discriminate].
      injection H as <-. simpl. now rewrite (IH r).
    + destruct (assign kwargs c) as [r |]; [| discriminate].
      injection H as <-. simpl. now rewrite (IH r).
Qed.

Lemma assign_get kwargs c c' name :
  assign kwargs c = Ok c' ->
  get name c' = assigned kwargs name <$> get name c.
Proof.
  revert c'. induction c as [| [n cv] c IH]; intros c' H; simpl in H.
  - now injection H as <-.
  - unfold assigned.
    destruct (given n kwargs) as [v |] eqn:Eg.
    + destruct (cast (domain cv) v) as [v' |] eqn:Ec; [| discriminate].
      destruct (assign kwargs c) as [r |]; [| discriminate].
      injection H as <-. simpl.
      destruct (String.eqb n name) eqn:E.
      * apply String.eqb_eq in E as <-. simpl. now rewrite Eg, Ec.
      * now apply IH.
    + destruct (assign kwargs c) as [r |]; [| discriminate].
      injection H as <-. simpl.
      destruct (String.eqb n name) eqn:E.
      * apply String.eqb_eq in E as <-. simpl. now rewrite Eg.
      * now apply IH.
Qed.

Lemma assign_cast kwargs c c' name cv v :
  assign kwargs c = Ok c' ->
  get name c = Some cv ->
  given name kwargs = Some v ->
  exists v', cast (domain cv) v = Ok v'.
Proof.
  revert c'. induction c as [| [n x] c IH]; intros c' H Hg Hv; simpl in *;
    [discriminate Hg |].
  destruct (String.eqb n name) eqn:E.
  - apply String.eqb_eq in E as ->. injection Hg as ->. rewrite Hv in H.
    destruct (cast (domain cv) v) as [v' |]; [now exists v' | discriminate].
  - destruct (given n kwargs) as [w |].
    + destruct (cast (domain x) w); [| discriminate].
      destruct (assign kwargs c) as [r |]; [| discriminate].
      now apply (IH r).
    + destruct (assign kwargs c) as [r |]; [| discriminate].
      now apply (IH r).
Qed.

Lemma assign_untouched kwargs c :
  (forall n, In n (map fst c) -> given n kwargs = None) ->
  assign kwargs c = Ok c.
Proof.
  induction c as [| [n cv] c IH]; intros H; [reflexivity |].
  simpl. rewrite (H n) by now left.
  rewrite IH; [reflexivity |]. intros m Hm. apply H. now right.
Qed.

Lemma assign_app kwargs c1 c2 :
  assign kwargs (c1 ++ c2)%list =
  match assign kwargs c1 with
  | Ok r1 =>
      match assign kwargs c2 with
      | Ok r2 => Ok (r1 ++ r2)%list
      | Raise e => Raise e
      end
  | Raise e => Raise e
  end.
Proof.
  induction c1 as [| [n cv] c1 IH]; simpl.
  - now destruct (assign kwargs c2).
  - destruct (given n kwargs) as [v |].
    + destruct (cast (domain cv) v); [| reflexivity].
      rewrite IH. destruct (assign kwargs c1); [| reflexivity].
      now destruct (assign kwargs c2).
    + rewrite IH. destruct (assign kwargs c1); [| reflexivity].
      now destruct (assign kwargs c2).
Qed.

Lemma get_None_names name c : get name c = None -> ~ In name (map fst c).
Proof.
  induction c as [| [n cv] c IH]; simpl; [tauto |].
  destruct (String.eqb n name) eqn:E; [discriminate |].
  apply String.eqb_neq in E. intros Hg [H | H]; [contradiction |].
  now apply IH.
Qed.

Lemma declared_normalise (kwargs : list (string * pyval)) c :
  forallb
    (fun kv =>
       match get (normalise (fst kv)) c with
       | Some _ => true
       | None => false
       end)
    (map (fun kv => (normalise (fst kv), snd kv)) kwargs) =
  forallb
    (fun kv =>
       match get (normalise (fst kv)) c with
       | Some _ => true
       | None => false
       end)
    kwargs.
Proof.
  induction kwargs as [| [k v] kwargs IH]; [reflexivity |].
  simpl. now rewrite IH, normalise_idempotent.
Qed.

(** X16. Validation raises nothing but [ValueError] (never
    [ConfigurationError]); it raises it whenever some key, its spaces read
    as underscores, names no declared option, whatever the other keys and
    values; and a key with spaces is treated as the key with
    underscores. *)
Theorem set_value_raises_ValueError :
  (forall kwargs c e, set_value kwargs c = Raise e -> e = ValueError) /\
  (forall kwargs c key v,
      In (key, v) kwargs ->
      get (normalise key) c = None ->
      set_value kwargs c = Raise ValueError) /\
  (forall kwargs c,
      set_value (map (fun kv => (normalise (fst kv), snd kv)) kwargs) c =
      set_value kwargs c).
Proof.
  split; [| split].
  - intros kwargs c e. unfold set_value.
    destruct (forallb _ kwargs).
    + apply assign_raises.
    + intros H. now injection H as <-.
  - intros kwargs c key v Hin Hg. unfold set_value.
    destruct (forallb _ kwargs) eqn:E; [| reflexivity].
    rewrite forallb_forall in E. specialize (E _ Hin). simpl in E.
    rewrite Hg in E. discriminate E.
  - intros kwargs c. unfold set_value. rewrite assign_normalise.
    now rewrite declared_normalise.
Qed.

(** X17. A validation that succeeds keeps the names of the options, in
    their order, and the domain of every option; an option for which no
    key stands, spaces read as underscores, keeps its value, and an option
    for which a key stands holds the value of the last such key, cast by
    its domain. *)
Theorem set_value_frame kwargs c c' :
  set_value kwargs c = Ok c' ->
  map fst c' = map fst c /\
  (forall name, domain <$> get name c' = domain <$> get name c) /\
  (forall name,
      ~ In name (map (fun kv => normalise (fst kv)) kwargs) ->
      get name c' = get name c) /\
  (forall name cv v,
      get name c = Some cv ->
      given name kwargs = Some v ->
      exists v',
        cast (domain cv) v = Ok v' /\
        get name c' = Some (mkConfigValue v' (domain cv))).
Proof.
  unfold set_value. destruct (forallb _ kwargs); [| discriminate].
  intros H. split; [now apply (assign_names kwargs) |]. split; [| split].
  - intros name. rewrite (assign_get _ _ _ name H).
    destruct (get name c) as [cv |]; [| reflexivity].
    simpl. unfold assigned. destruct (given name kwargs) as [v |];
      [| reflexivity].
    now destruct (cast (domain cv) v).
  - intros name Hn. rewrite (assign_get _ _ _ name H).
    destruct (get name c) as [cv |]; [| reflexivity].
    simpl. unfold assigned. now rewrite (given_None _ _ Hn).
  - intros name cv v Hg Hv.
    destruct (assign_cast _ _ _ _ _ _ H Hg Hv) as [v' Hc].
    exists v'. split; [exact Hc |].
    rewrite (assign_get _ _ _ name H), Hg. simpl. unfold assigned.
    now rewrite Hv, Hc.
Qed.

Lemma set_value_declared kwargs base opts :
  (forall n, In n (map fst base) -> given n kwargs = None) ->
  forallb
    (fun kv : string * pyval =>
       match get (normalise (fst kv)) (base ++ opts)%list with
       | Some _ => true
       | None => false
       end)
    kwargs = true ->
  set_value kwargs (base ++ opts)%list =
  match assign kwargs opts with
  | Ok r => Ok (base ++ r)%list
  | Raise e => Raise e
  end.
Proof.
  intros Hb Hd. unfold set_value. rewrite Hd, assign_app.
  now rewrite (assign_untouched _ _ Hb).
Qed.

Section TemplateValidation.

Variable int_str : string -> option Z.
Variable Base_CONFIG_Template : ConfigDict.
Variable In_DistributedVars : pyval -> option pyval.

(** The template, once built. *)
Lemma CONFIG_Template_inv t :
  CONFIG_Template int_str Base_CONFIG_Template In_DistributedVars = Ok t ->
  exists ad,
    t = (Base_CONFIG_Template
           ++ declared_options int_str In_DistributedVars ad)%list /\
    get "area_definition" Base_CONFIG_Template = None /\
    get "transformation_method" Base_CONFIG_Template = None /\
    get "transformation_scheme" Base_CONFIG_Template = None /\
    get "finite_elements" Base_CONFIG_Template = None /\
    get "collocation_points" Base_CONFIG_Template = None.
Proof.
  unfold CONFIG_Template. intros H.
  apply declare_inv in H as (c4 & cv4 & H & E4 & G4 & ->).
  apply declare_inv in H as (c3 & cv3 & H & E3 & G3 & ->).
  apply declare_inv in H as (c2 & cv2 & H & E2 & G2 & ->).
  apply declare_inv in H as (c1 & cv1 & H & E1 & G1 & ->).
  apply declare_inv in H as (c0 & cv0 & H & E0 & G0 & ->).
  injection H as <-.
  injection E4 as <-. injection E3 as <-. injection E2 as <-.
  injection E1 as <-.
  unfold ConfigValue_ in E0.
  destruct (cast (Some In_DistributedVars) (PyDistributedVars uniform))
    as [ad |] eqn:Ead; [| discriminate E0].
  injection E0 as <-.
  rewrite !get_app in *. cbn [String.eqb Ascii.eqb Bool.eqb] in *.
  repeat match goal with
         | H : match ?g with Some _ => _ | None => _ end = None |- _ =>
             destruct g eqn:?; [discriminate H |]
         end.
  exists ad. unfold declared_options. rewrite <- !app_assoc. auto 10.
Qed.

(** No option of the base template is named like one of the options
    given. *)
Lemma base_not_given t kwargs :
  CONFIG_Template int_str Base_CONFIG_Template In_DistributedVars = Ok t ->
  (forall key,
      In key (map (fun kv : string * pyval => normalise (fst kv)) kwargs) ->
      In key ["area_definition"; "transformation_method";
              "transformation_scheme"; "finite_elements";
              "collocation_points"]) ->
  forall n, In n (map fst Base_CONFIG_Template) -> given n kwargs = None.
Proof.
  intros Ht Hk n Hn. apply given_None. intros Hin.
  destruct (CONFIG_Template_inv t Ht) as (ad & _ & G1 & G2 & G3 & G4 & G5).
  specialize (Hk n Hin).
  destruct Hk as [<- | [<- | [<- | [<- | [<- | []]]]]];
    (eapply get_None_names; [| exact Hn]; assumption).
Qed.

(** X18. Given alone, a value for [finite_elements] or
    [collocation_points] is accepted exactly when it is [None] or [int]
    converts it, and what is stored is [None] or the integer [int]
    returns: a float is stored truncated, a boolean as 0 or 1.  A value
    that is refused raises [ValueError]. *)
Theorem integer_option_stored name v t :
  CONFIG_Template int_str Base_CONFIG_Template In_DistributedVars = Ok t ->
  name = "finite_elements" \/ name = "collocation_points" ->
  match set_value [(name, v)] t with
  | Ok c =>
      value <$> get name c =
      Some match v with
           | PyNone => PyNone
           | _ => match int int_str v with
                  | Some z => PyInt z
                  | None => PyNone
                  end
           end /\
      (v = PyNone \/ is_Some (int int_str v))
  | Raise e => e = ValueError /\ v <> PyNone /\ int int_str v = None
  end.
Proof.
  intros Ht Hname.
  destruct (CONFIG_Template_inv t Ht) as (ad & Et & G1 & G2 & G3 & G4 & G5).
  assert (Hb : forall n, In n (map fst Base_CONFIG_Template) ->
                         given n [(name, v)] = None).
  { apply (base_not_given t _ Ht). intros key [<- | []].
    destruct Hname as [-> | ->]; cbn; auto 10. }
  assert (Hc : v <> PyNone ->
               cast (Some (int_domain int_str)) v =
               match int int_str v with
               | Some z => Ok (PyInt z)
               | None => Raise ValueError
               end).
  { intros Hv. unfold cast, int_domain. destruct v; try congruence;
      now destruct (int _ _). }
  rewrite Et. rewrite (set_value_declared _ _ _ Hb);
    [| destruct Hname as [-> | ->]; cbn;
       rewrite get_app_list, ?G4, ?G5; reflexivity].
  destruct Hname as [-> | ->].
  - cbn [assign declared_options given normalise String.eqb Ascii.eqb
         Bool.eqb domain].
    destruct v; try rewrite Hc by discriminate;
      try match goal with
          | |- context [int int_str ?w] =>
              destruct (int int_str w) as [z' |] eqn:Ei
          end;
      cbn [cast]; rewrite ?get_app_list, ?G4; cbn;
      repeat split; eauto; discriminate.
  - cbn [assign declared_options given normalise String.eqb Ascii.eqb
         Bool.eqb domain].
    destruct v; try rewrite Hc by discriminate;
      try match goal with
          | |- context [int int_str ?w] =>
              destruct (int int_str w) as [z' |] eqn:Ei
          end;
      cbn [cast]; rewrite ?get_app_list, ?G5; cbn;
      repeat split; eauto; discriminate.
Qed.

(** X20. The template of this module puts no condition on the
    transformation method and scheme and only converts the two counts:
    validation accepts every method and scheme, and every integer for
    [finite_elements] and [collocation_points], zero and the negative
    ones included, and stores them as given. *)
Theorem module_template_accepts t method scheme fe cp :
  CONFIG_Template int_str Base_CONFIG_Template In_DistributedVars = Ok t ->
  exists c,
    set_value [("transformation_method", method);
               ("transformation_scheme", scheme);
               ("finite_elements", PyInt fe);
               ("collocation_points", PyInt cp)] t = Ok c /\
    value <$> get "transformation_method" c = Some method /\
    value <$> get "transformation_scheme" c = Some scheme /\
    value <$> get "finite_elements" c = Some (PyInt fe) /\
    value <$> get "collocation_points" c = Some (PyInt cp).
Proof.
  intros Ht.
  destruct (CONFIG_Template_inv t Ht) as (ad & Et & G1 & G2 & G3 & G4 & G5).
  set (kwargs := [("transformation_method", method);
                  ("transformation_scheme", scheme);
                  ("finite_elements", PyInt fe);
                  ("collocation_points", PyInt cp)]).
  assert (Hb : forall n, In n (map fst Base_CONFIG_Template) ->
                         given n kwargs = None).
  { apply (base_not_given t _ Ht). intros key Hk. cbn in Hk.
    destruct Hk as [<- | [<- | [<- | [<- | []]]]]; cbn; auto 10. }
  rewrite Et. rewrite (set_value_declared _ _ _ Hb);
    [| cbn; rewrite !get_app_list, G2, G3, G4, G5; reflexivity].
  cbn [assign declared_options given kwargs normalise String.eqb Ascii.eqb
       Bool.eqb domain].
  rewrite !cast_no_domain. cbn [cast int_domain int fmap option_fmap option_map].
  eexists. split; [reflexivity |].
  rewrite !get_app_list, G2, G3, G4, G5. cbn. auto.
Qed.

End TemplateValidation.

(** X21. An exception raised by the inherited [apply_transformation] is
    raised by [apply_transformation], and the block is as the inherited
    method left it: no grid attribute is set after it. *)
Theorem apply_transformation_propagates {Args : Type}
    (base_apply_transformation : Args -> M unit) args s s1 e :
  base_apply_transformation args s = (s1, Raise e) ->
  apply_transformation base_apply_transformation args s = (s1, Raise e).
Proof.
  intros Hb. unfold apply_transformation.
  now rewrite (bind_raise _ _ _ _ _ Hb).
Qed.

(** ** The width *)

Section GeometryProperties.

Context {Kwargs U : Type}.
Variable base_add_geometry : FlowDirection -> Kwargs -> M unit.
Variable units_meta : string -> M U.


(** An exception of the inherited [add_geometry], or of the lookup of the
    units of length after it, is raised by [add_geometry]; the block is as
    the failing call left it, and the width is the one the channel had:
    none is created. *)
Lemma add_geometry_exceptions flow_direction kwargs c :
  (forall b1 e,
      base_add_geometry flow_direction kwargs (block c) = (b1, Raise e) ->
      add_geometry base_add_geometry units_meta flow_direction kwargs c
      = (mkChannel b1 (width c), Raise e)) /\
  (forall b1 b2 e,
      base_add_geometry flow_direction kwargs (block c) = (b1, Ok tt) ->
      units_meta "length" b1 = (b2, Raise e) ->
      add_geometry base_add_geometry units_meta flow_direction kwargs c
      = (mkChannel b2 (width c), Raise e)).
Proof.
  split.
  - intros b1 e Hb. unfold add_geometry. now rewrite Hb.
  - intros b1 b2 e Hb Hu. unfold add_geometry. now rewrite Hb, Hu.
Qed.

End GeometryProperties.

(** ** The order of the isothermal constraints, and positive factors *)

Lemma isothermal_entries_indices x0 index :
  map fst (isothermal_entries x0 index) =
  List.filter (fun i => negb (Qeq_bool (snd i) x0)) index.
Proof.
  unfold isothermal_entries.
  induction index as [| i index IH]; [reflexivity |].
  simpl. destruct (Qeq_bool (snd i) x0); simpl; now rewrite IH.
Qed.

Section IsothermalOrder.

Context {Kwargs : Type}.
Variable base_add_isothermal_conditions : Kwargs -> M unit.

(** X7. On any non-empty domain, sorted or not, the indices of
    [eq_feed_isothermal] are the pairs of a time and a point that differs
    from the first point, time by time and in the order of the domain,
    each once for each time it occurs in the product. *)
Theorem isothermal_index_order kwargs s s1 x0 l :
  base_add_isothermal_conditions kwargs s = (s1, Ok tt) ->
  length_domain s1 = Some (x0 :: l) ->
  lookup_component "eq_feed_isothermal" (constraints s1) = None ->
  exists s' c,
    add_isothermal_conditions base_add_isothermal_conditions kwargs s
      = (s', Ok tt) /\
    lookup_component "eq_feed_isothermal" (constraints s') = Some c /\
    map fst c =
    flat_map
      (fun t =>
         map (fun x => (t, x))
             (List.filter (fun x => negb (Qeq_bool x x0)) l))
      (time s1).
Proof.
  intros Hb Hd Hfree. eexists _, _. split;
    [apply (add_isothermal_conditions_after_base _ _ _ _ _ _ Hb Hd Hfree) |].
  split; [now apply lookup_component_app |].
  rewrite isothermal_entries_indices.
  induction (time s1) as [| t T IH]; [reflexivity |].
  cbn [list_prod flat_map]. rewrite List.filter_app, IH. f_equal.
  cbn [map List.filter snd]. rewrite Qeq_bool_refl. cbn [negb].
  clear. induction l as [| y l IH]; [reflexivity |].
  simpl. destruct (Qeq_bool y x0); simpl; now rewrite IH.
Qed.

End IsothermalOrder.

Lemma gradient_pass_inv sf vs r v q :
  gradient_pass sf vs r !! v = Some q -> q = sf \/ r !! v = Some q.
Proof.
  intros H. destruct (in_dec Nat.eq_dec v vs) as [Hin | Hin].
  - rewrite gradient_pass_In in H by assumption. injection H as <-. now left.
  - rewrite gradient_pass_not_In in H by assumption. now right.
Qed.

Lemma area_pass_inv a r v q :
  area_pass a r !! v = Some q -> q = 100 \/ r !! v = Some q.
Proof.
  destruct (decide (v = a)) as [-> | Hne].
  - rewrite area_pass_eq. destruct (r !! a) as [p |]; [| discriminate].
    destruct (Qeq_bool p 1); intros H; injection H as <-; auto.
  - rewrite area_pass_ne by assumption. now right.
Qed.

Section ScalingPositive.

Variable base_calculate_scaling_factors : M unit.

(** X13. If every scaling factor is positive after the inherited pass,
    every scaling factor is positive however [calculate_scaling_factors]
    ends. *)
Theorem scaling_factors_positive s s0 :
  base_calculate_scaling_factors s = (s0, Ok tt) ->
  (forall v q, scaling_factor s0 !! v = Some q -> 0 < q) ->
  forall v q,
    scaling_factor
      (fst (calculate_scaling_factors base_calculate_scaling_factors s)) !! v
    = Some q ->
    0 < q.
Proof.
  intros Hb Hpos v q. rewrite (calculate_scaling_factors_block _ _ _ Hb).
  destruct (area s0) as [a |]; [| apply Hpos].
  cbn [scaling_factor set_scaling]. unfold scaled. intros H.
  apply gradient_pass_inv in H as [-> | H].
  { unfold gradient_factor. now destruct (dP_dx s0). }
  apply total_pass_inv in H as [H | ->]; [| reflexivity].
  apply area_pass_inv in H as [-> | H]; [reflexivity |].
  now apply (Hpos v).
Qed.

End ScalingPositive.

(** ** The further properties on the small channel *)

Lemma difference_elements_any_domain_witness :
  exists s' de,
    apply_transformation replace_domain [1 # 2; 0; 1; 2 # 4; 0] channel
      = (s', Ok tt) /\
    first_element s' = Some (1 # 2) /\
    difference_elements s' = Some de /\
    nfe s' = Some (len de) /\
    de = [0; 1].
Proof.
  destruct (difference_elements_any_domain replace_domain
              [1 # 2; 0; 1; 2 # 4; 0] channel
              (set_length_domain [1 # 2; 0; 1; 2 # 4; 0] channel)
              (1 # 2) [0; 1; 2 # 4; 0] eq_refl eq_refl)
    as (s' & de & H & Hf & Hd & Hn & _).
  exists s', de. repeat split; try assumption.
  unfold apply_transformation in H. vm_compute in H.
  injection H as <-. vm_compute in Hd. now injection Hd as <-.
Defined.

Lemma apply_transformation_without_domain_witness :
  apply_transformation (@no_op unit) tt bare_block
    = (bare_block, Raise (AttributeError "length_domain")) /\
  apply_transformation replace_domain [] channel
    = (set_length_domain [] channel, Raise IndexError).
Proof.
  split.
  - apply (proj1 (apply_transformation_without_domain (@no_op unit)));
      reflexivity.
  - apply (proj2 (apply_transformation_without_domain replace_domain));
      reflexivity.
Defined.

Lemma add_state_blocks_outcomes_witness :
  add_state_blocks (@no_op2 FlowDirection (option bool))
    (@no_op (option bool)) backward None channel
  = (set_first_element 0 channel, Ok tt).
Proof.
  apply (proj2 (proj2 (add_state_blocks_outcomes no_op2 no_op backward None
                         channel channel eq_refl)) 0 [1] eq_refl).
Defined.

Lemma isothermal_uniform_temperature_witness :
  exists s' c,
    add_isothermal_conditions (@no_op unit) tt
      (set_length_domain (uniform_grid 2) channel) = (s', Ok tt) /\
    lookup_component "eq_feed_isothermal" (constraints s') = Some c /\
    (Forall (fun e => holds (fun t x => t) (snd e)) c) /\
    ~ Forall (fun e => holds (fun t x => x) (snd e)) c.
Proof.
  destruct (isothermal_uniform_temperature (@no_op unit) tt
              (set_length_domain (uniform_grid 2) channel)
              (set_length_domain (uniform_grid 2) channel)
              (uniform_grid 2) (0 # 2))
    as (s' & c & H & Hl & HT); try reflexivity.
  exists s', c. split; [exact H |]. split; [exact Hl |]. split.
  - apply (proj1 (HT (fun t x => t))). intros t x _ _. reflexivity.
  - intros Hall.
    pose proof (proj1 (proj1 (HT (fun t x => x))) Hall 0 (2 # 2)) as Hx.
    assert (E : 2 # 2 == 0 # 2) by (apply Hx; vm_compute; auto 10).
    discriminate E.
Defined.

Lemma isothermal_degrees_of_freedom_witness :
  exists s',
    add_isothermal_conditions (@no_op unit) tt
      (set_length_domain (uniform_grid 2) channel) = (s', Ok tt) /\
    number_constraints s' = 4%Z /\
    degrees_of_freedom s' = 0%Z.
Proof.
  destruct (isothermal_degrees_of_freedom (@no_op unit) tt
              (set_length_domain (uniform_grid 2) channel)
              (set_length_domain (uniform_grid 2) channel)
              (uniform_grid 2) (0 # 2))
    as (s' & H & Hn & _ & Hd & _); try reflexivity.
  exists s'. repeat split; assumption.
Defined.

Lemma isothermal_index_order_witness :
  exists s' c,
    add_isothermal_conditions (@no_op unit) tt
      (set_length_domain [1; 0; 1 # 2; 2 # 2] channel) = (s', Ok tt) /\
    lookup_component "eq_feed_isothermal" (constraints s') = Some c /\
    map fst c = [(0, 0); (0, 1 # 2); (1 # 2, 0); (1 # 2, 1 # 2)].
Proof.
  destruct (isothermal_index_order (@no_op unit) tt
              (set_length_domain [1; 0; 1 # 2; 2 # 2] channel)
              (set_length_domain [1; 0; 1 # 2; 2 # 2] channel)
              1 [0; 1 # 2; 2 # 2])
    as (s' & c & H & Hl & Hi); try reflexivity.
  exists s', c. repeat split; assumption.
Defined.

Lemma pressure_change_idempotent_witness :
  _add_pressure_change tt bare_block
    = (bare_block, Raise (AttributeError "deltaP")) /\
  _add_pressure_change true (set_dP_dx [6%nat; 7%nat; 8%nat] channel)
    = (set_dP_dx [6%nat; 7%nat; 8%nat] channel, Ok tt).
Proof.
  split.
  - apply (proj1 (pressure_change_idempotent tt tt bare_block)). reflexivity.
  - apply (proj2 (pressure_change_idempotent tt true channel)). reflexivity.
Defined.

Lemma alias_then_scaling_witness :
  exists s',
    calculate_scaling_factors default_scaling
      (set_dP_dx [6%nat; 7%nat; 8%nat] channel) = (s', Ok tt) /\
    scaling_factor s' !! 3%nat = Some (1 # 100000).
Proof.
  destruct (alias_then_scaling default_scaling tt channel
              (set_dP_dx [6%nat; 7%nat; 8%nat] channel)
              (fst (default_scaling (set_dP_dx [6%nat; 7%nat; 8%nat] channel)))
              0%nat [3%nat; 4%nat; 5%nat])
    as (s' & H & Hv); try reflexivity.
  exists s'. split; [exact H |]. apply Hv. now left.
Defined.

Lemma scaling_frame_witness :
  scaling_factor (fst (calculate_scaling_factors default_scaling channel))
    !! 6%nat = None /\
  degrees_of_freedom (fst (calculate_scaling_factors default_scaling channel))
  = degrees_of_freedom channel.
Proof.
  destruct (scaling_frame default_scaling channel
              (fst (default_scaling channel)) eq_refl) as (Hv & _ & Hd).
  split; [| exact Hd].
  transitivity (scaling_factor (fst (default_scaling channel)) !! 6%nat);
    [apply (Hv 6%nat) | reflexivity].
  - discriminate.
  - intros [E | [E | []]]; discriminate E.
  - intros [E | [E | [E | []]]]; discriminate E.
Defined.

Lemma total_scaling_witness :
  scaling_factor (fst (calculate_scaling_factors default_scaling channel))
    !! 2%nat = Some (1 # 10000) /\
  scaling_factor (fst (calculate_scaling_factors default_scaling channel))
    !! 1%nat = Some (1 # 1000).
Proof.
  split.
  - apply (total_scaling default_scaling channel
             (fst (default_scaling channel)) 0%nat [1%nat; 2%nat] 2%nat);
      try reflexivity.
    + right. now left.
    + discriminate.
    + intros [E | [E | [E | []]]]; discriminate E.
  - apply (total_scaling default_scaling channel
             (fst (default_scaling channel)) 0%nat [1%nat; 2%nat] 1%nat);
      try reflexivity.
    + now left.
    + discriminate.
    + intros [E | [E | [E | []]]]; discriminate E.
Defined.

Lemma area_factor_never_one_witness : Qeq_bool 100 1 = false.
Proof.
  apply (area_factor_never_one default_scaling channel
           (fst (default_scaling channel)) 0%nat 100); reflexivity.
Defined.

Lemma scaling_factors_positive_witness :
  scaling_factor (fst (calculate_scaling_factors default_scaling channel))
    !! 3%nat = Some 100000 /\
  0 < 100000.
Proof.
  split; [reflexivity |].
  refine (scaling_factors_positive default_scaling channel
            (fst (default_scaling channel)) eq_refl _ 3%nat 100000 eq_refl).
  intros v q H.
  change ((<[0%nat := 1]> (<[1%nat := 1 # 1000]> (<[3%nat := 7]> ∅))
           : gmap var Q) !! v = Some q) in H.
  repeat (rewrite lookup_insert in H; case_decide;
          [injection H as <-; reflexivity |]).
  rewrite lookup_empty in H. discriminate H.
Defined.

Lemma inherited_exception_propagates_witness :
  add_state_blocks (fun _ _ => raise ConfigurationError)
    (@no_op (option bool)) forward None channel
  = (channel, Raise ConfigurationError) /\
  add_isothermal_conditions (fun _ : unit => raise RuntimeError) tt channel
  = (channel, Raise RuntimeError) /\
  calculate_scaling_factors (raise KeyError) channel
  = (channel, Raise KeyError).
Proof.
  destruct inherited_exception_propagates as (H1 & H2 & H3).
  split; [| split].
  - now apply H1.
  - now apply H2.
  - now apply H3.
Defined.


Lemma set_value_raises_ValueError_witness :
  set_value [("finite_elements", PyUseDefault)]
    (declared_options ascii_numeral In_DistributedVars_member
       (PyDistributedVars uniform))
  = Raise ValueError /\
  set_value [("finite_elements", PyInt 3); ("elements", PyInt 3)]
    (declared_options ascii_numeral In_DistributedVars_member
       (PyDistributedVars uniform))
  = Raise ValueError /\
  (exists c,
      set_value [("finite elements", PyInt 3)]
        (declared_options ascii_numeral In_DistributedVars_member
           (PyDistributedVars uniform))
      = Ok c /\
      value <$> get "finite_elements" c = Some (PyInt 3)).
Proof.
  destruct set_value_raises_ValueError as (Hraise & Hkey & Hnorm).
  split; [| split].
  - destruct (set_value [("finite_elements", PyUseDefault)]
                (declared_options ascii_numeral In_DistributedVars_member
                   (PyDistributedVars uniform))) as [c | e] eqn:E;
      [discriminate E |].
    f_equal. now apply Hraise in E.
  - apply (Hkey _ _ "elements" (PyInt 3)); [right; now left | reflexivity].
  - eexists. split;
      [rewrite <- (Hnorm [("finite elements", PyInt 3)]); reflexivity
      | reflexivity].
Defined.

Lemma set_value_frame_witness :
  exists c',
    set_value [("finite elements", PyInt 40)]
      (declared_options ascii_numeral In_DistributedVars_member
         (PyDistributedVars uniform))
    = Ok c' /\
    value <$> get "collocation_points" c' = Some (PyInt 5) /\
    value <$> get "finite_elements" c' = Some (PyInt 40) /\
    map fst c' = ["area_definition"; "transformation_method";
                  "transformation_scheme"; "finite_elements";
                  "collocation_points"].
Proof.
  eexists. split; [reflexivity |].
  destruct (set_value_frame [("finite elements", PyInt 40)]
              (declared_options ascii_numeral In_DistributedVars_member
                 (PyDistributedVars uniform)) _ eq_refl)
    as (Hn & _ & Hg & Hv).
  split; [| split; [| exact Hn]].
  - rewrite (Hg "collocation_points"); [reflexivity |].
    intros [E | []]. discriminate E.
  - destruct (Hv "finite_elements" _ (PyInt 40) eq_refl eq_refl)
      as (v' & Hc & Hget).
    rewrite Hget. cbn in Hc. injection Hc as <-. reflexivity.
Defined.

Lemma integer_option_stored_witness :
  exists c,
    set_value [("finite_elements", PyFloat (41 # 2))]
      (declared_options ascii_numeral In_DistributedVars_member
         (PyDistributedVars uniform))
    = Ok c /\
    value <$> get "finite_elements" c = Some (PyInt 20).
Proof.
  pose proof (integer_option_stored ascii_numeral []
                In_DistributedVars_member
                "finite_elements" (PyFloat (41 # 2)) _ eq_refl
                (or_introl eq_refl)) as H.
  cbn in H. eexists. split; [reflexivity |]. exact (proj1 H).
Defined.

Lemma module_template_accepts_witness :
  exists c,
    set_value [("transformation_method", PyStr "dae.none");
               ("transformation_scheme", PyStr "NONE");
               ("finite_elements", PyInt (-3));
               ("collocation_points", PyInt 0)]
      (declared_options ascii_numeral In_DistributedVars_member
         (PyDistributedVars uniform)) = Ok c /\
    value <$> get "transformation_method" c = Some (PyStr "dae.none") /\
    value <$> get "finite_elements" c = Some (PyInt (-3)).
Proof.
  destruct (module_template_accepts ascii_numeral []
              In_DistributedVars_member _
              (PyStr "dae.none") (PyStr "NONE") (-3)%Z 0%Z eq_refl)
    as (c & H & Hm & _ & Hf & _).
  exists c. repeat split; assumption.
Defined.

Lemma apply_transformation_propagates_witness :
  apply_transformation failing_transformation 1%positive channel
    = (channel, Raise ConfigurationError).
Proof.
  now apply (apply_transformation_propagates failing_transformation).
Defined.
